(** * pywebview: the JS-to-host bridge of [webview/util.py] and the DOM event
    subscriptions of [webview/dom/event.py], embedded in Rocq.

    Python values are modelled as the code uses them: strings as [string],
    lists as [list], dictionaries as association lists in insertion order,
    objects as records in a heap addressed by identity, and the mutable
    state a function touches as an explicit state that is passed through.

    The first part of the file holds the embedding, one module per source
    unit; the second part holds the lemmas and theorems about it. *)

From Stdlib Require Import List String Ascii Bool Arith ZArith Lia Permutation.
Import ListNotations.
Set Warnings "-register-all".
Open Scope string_scope.
Open Scope list_scope.

(** String concatenation gets its own infix, [++] stays with lists. *)
Infix "+++" := String.append (at level 60, right associativity).

(** ** Characters the source names *)

Definition backslash : ascii := "092"%char.
Definition dquote : ascii := "034"%char.
Definition squote : ascii := "039"%char.
Definition newline : ascii := "010"%char.
Definition creturn : ascii := "013"%char.
Definition dot : ascii := "."%char.
Definition underscore : ascii := "_"%char.

Definition str1 (c : ascii) : string := String c EmptyString.
Definition str2 (c d : ascii) : string := String c (String d EmptyString).

(** [str.replace(old, new)] for a pattern [old] of one character: every
    occurrence, left to right, is replaced by [new]. *)
Fixpoint replace_char (old : ascii) (new : string) (s : string) : string :=
  match s with
  | EmptyString => EmptyString
  | String c s' =>
      if Ascii.eqb c old then new +++ replace_char old new s'
      else String c (replace_char old new s')
  end.

(** ** [escape_string] and its siblings *)

Module Escape.

(** [escape_string]: the four replacements in the order of the source,
    backslash first. *)
Definition escape_string (s : string) : string :=
  replace_char creturn (str2 backslash "r")
    (replace_char newline (str2 backslash "n")
       (replace_char dquote (str2 backslash dquote)
          (replace_char backslash (str2 backslash backslash) s))).

(** [escape_quotes] on a string argument. *)
Definition escape_quotes (s : string) : string :=
  replace_char squote (str2 backslash squote)
    (replace_char dquote (str2 backslash dquote) s).

(** What one character becomes under [escape_string]. *)
Definition escape_char (c : ascii) : string :=
  if Ascii.eqb c backslash then str2 backslash backslash
  else if Ascii.eqb c dquote then str2 backslash dquote
  else if Ascii.eqb c newline then str2 backslash "n"
  else if Ascii.eqb c creturn then str2 backslash "r"
  else str1 c.

(** The reader of an escaped string: a backslash announces a two-character
    sequence. *)
Definition unescape_char (c : ascii) : ascii :=
  if Ascii.eqb c "n" then newline
  else if Ascii.eqb c "r" then creturn
  else c.

Fixpoint unescape (s : string) : string :=
  match s with
  | EmptyString => EmptyString
  | String c s' =>
      if Ascii.eqb c backslash then
        match s' with
        | EmptyString => str1 c
        | String d s'' => String (unescape_char d) (unescape s'')
        end
      else String c (unescape s')
  end.

End Escape.

(** ** [sort_js_files] and [load_js_files] *)

Module SortJs.

(** The dictionary [LOAD_ORDER]; [None] is [basename not in LOAD_ORDER]. *)
Definition LOAD_ORDER (basename : string) : option nat :=
  if String.eqb basename "polyfill" then Some 0
  else if String.eqb basename "api" then Some 1
  else if String.eqb basename "finish" then Some 99
  else None.

(** [list.insert(i, x)] for an index [i >= 0]: an index past the end
    appends. *)
Definition list_insert {A : Type} (i : nat) (x : A) (l : list A) : list A :=
  firstn i l ++ x :: skipn i l.

(** [sorted(l, key=key)]: a stable sort, elements of equal key keep their
    order. *)
Fixpoint insert_by {A : Type} (key : A -> nat) (x : A) (l : list A) : list A :=
  match l with
  | [] => [x]
  | y :: l' => if Nat.leb (key x) (key y) then x :: l else y :: insert_by key x l'
  end.

Definition sorted {A : Type} (key : A -> nat) (l : list A) : list A :=
  fold_right (insert_by key) [] l.

(** [os.path.splitext(os.path.basename(file))[0]] as [posixpath] computes
    it. *)
Fixpoint basename_from (acc p : string) : string :=
  match p with
  | EmptyString => acc
  | String c p' =>
      if Ascii.eqb c "/" then basename_from "" p'
      else basename_from (acc +++ str1 c) p'
  end.

Definition basename (p : string) : string := basename_from "" p.

Fixpoint all_dots (s : string) : bool :=
  match s with
  | EmptyString => true
  | String c s' => Ascii.eqb c dot && all_dots s'
  end.

(** [Some r] when [s] has a dot, [r] being what precedes the last one. *)
Fixpoint before_last_dot (s : string) : option string :=
  match s with
  | EmptyString => None
  | String c s' =>
      match before_last_dot s' with
      | Some r => Some (String c r)
      | None => if Ascii.eqb c dot then Some "" else None
      end
  end.

Definition splitext_root (s : string) : string :=
  match before_last_dot s with
  | Some r => if all_dots r then s else r
  | None => s
  end.

Definition posix_stem (file : string) : string := splitext_root (basename file).

Section Sort.

(** The base name without extension of a path; [os.path] is the platform's,
    so the functions take it as a parameter. *)
Variable stem : string -> string.

(** The first loop: files outside [LOAD_ORDER] go to [ordered_js_files], the
    others to [remaining_js_files] with their base name. *)
Definition split_step (acc : list string * list (string * string)) (file : string)
  : list string * list (string * string) :=
  let basename := stem file in
  match LOAD_ORDER basename with
  | None => (fst acc ++ [file], snd acc)
  | Some _ => (fst acc, snd acc ++ [(basename, file)])
  end.

(** The two lists the loop builds, as filters of the input. *)
Definition unordered (js_files : list string) : list string :=
  filter (fun f => match LOAD_ORDER (stem f) with None => true | Some _ => false end) js_files.

Definition named (js_files : list string) : list string :=
  filter (fun f => match LOAD_ORDER (stem f) with None => false | Some _ => true end) js_files.

Definition split_files (js_files : list string)
  : list string * list (string * string) :=
  fold_left split_step js_files ([], []).

(** [LOAD_ORDER[x[0]]] for an entry of [remaining_js_files], whose base name
    is always a key of the dictionary. *)
Definition load_key (x : string * string) : nat :=
  match LOAD_ORDER (fst x) with
  | Some k => k
  | None => 0
  end.

Definition insert_step (ordered : list string) (x : string * string) : list string :=
  list_insert (load_key x) (snd x) ordered.

Definition sort_js_files (js_files : list string) : list string :=
  let ordered_js_files := fst (split_files js_files) in
  let remaining_js_files := snd (split_files js_files) in
  fold_left insert_step (sorted load_key remaining_js_files) ordered_js_files.

(** [load_js_files]: the fragments are read and formatted in the order of
    [sort_js_files]; the polyfill is skipped unless the platform is
    [mshtml]. Reading a file and the [%] formatting are parameters. *)
Variable read : string -> string.
Variable format : string -> list (string * string) -> string.
Variable api_params customize_params : list (string * string).

Definition skipped (platform : string) (file : string) : bool :=
  let name := stem file in
  negb (String.eqb name "api") && negb (String.eqb name "customize")
  && String.eqb name "polyfill" && negb (String.eqb platform "mshtml").

Definition load_step (platform : string) (js_code : string) (file : string) : string :=
  let name := stem file in
  let content := read file in
  if String.eqb name "api" then js_code +++ format content api_params
  else if String.eqb name "customize" then js_code +++ format content customize_params
  else if String.eqb name "polyfill" && negb (String.eqb platform "mshtml") then js_code
  else js_code +++ format content [].

Definition load_js_files (platform : string) (js_files : list string) : string :=
  fold_left (load_step platform) (sort_js_files js_files) "".

(** The fragments whose text [load_js_files] appends, in order. *)
Definition loaded_files (platform : string) (js_files : list string) : list string :=
  filter (fun file => negb (skipped platform file)) (sort_js_files js_files).

End Sort.

(** A directory of 101 scripts: the three named fragments and 98 others. *)
Fixpoint other_files (n : nat) : list string :=
  match n with
  | 0 => []
  | S n' => other_files n' ++ [String "x" (String.concat "" (repeat "i" n')) +++ ".js"]
  end.

Definition many_files : list string :=
  ["js/polyfill.js"; "js/api.js"; "js/finish.js"] ++ other_files 98.

End SortJs.

(** ** [DOMEvent] of [webview/dom/event.py] *)

Module DomEvent.

Inductive log_entry : Type :=
| Warning (msg : string).

Section DOMEvent.

(** Handlers are host callables, compared as Python's [in] and
    [list.remove] compare them. *)
Variable handler : Type.
Variable handler_eq_dec : forall x y : handler, {x = y} + {x <> y}.
Variable handler_str : handler -> string.

(** [webview.dom.element.Element] is outside the source at hand: its state
    (which holds the event-handler registry) and its [on] and [off] methods
    are parameters. *)
Variable Element : Type.
Variable element_on : string -> handler -> Element -> Element.
Variable element_off : string -> handler -> Element -> Element.

(** A subscription object with the element it refers to and the log. The
    element is shared with the rest of the program, so it is part of the
    state every method returns. *)
Record DOMEvent : Type := mkDOMEvent {
  event : string;
  element : Element;
  _items : list handler;
  log : list log_entry
}.

(** [item in self._items] *)
Definition contains (item : handler) (items : list handler) : bool :=
  if in_dec handler_eq_dec item items then true else false.

(** [self._items.remove(item)]: the first equal element goes. *)
Fixpoint list_remove (item : handler) (items : list handler) : list handler :=
  match items with
  | [] => []
  | x :: items' =>
      if handler_eq_dec x item then items' else x :: list_remove item items'
  end.

Definition __iadd__ (self : DOMEvent) (item : handler) : DOMEvent :=
  {| event := event self;
     element := element_on (event self) item (element self);
     _items := _items self ++ [item];
     log := log self |}.

Definition __isub__ (self : DOMEvent) (item : handler) : DOMEvent :=
  if contains item (_items self) then
    {| event := event self;
       element := element_off (event self) item (element self);
       _items := list_remove item (_items self);
       log := log self |}
  else
    {| event := event self;
       element := element self;
       _items := _items self;
       log := log self ++ [Warning ("Event handler " +++ handler_str item +++ " not found")] |}.

End DOMEvent.

Arguments mkDOMEvent {handler Element} event element _items log.
Arguments event {handler Element} d.
Arguments element {handler Element} d.
Arguments _items {handler Element} d.
Arguments log {handler Element} d.
Arguments contains {handler} handler_eq_dec item items.
Arguments list_remove {handler} handler_eq_dec item items.
Arguments __iadd__ {handler Element} element_on self item.
Arguments __isub__ {handler} handler_eq_dec handler_str {Element} element_off self item.

End DomEvent.

(** ** Python values, dictionaries and the object heap *)

Module Py.

(** Values that cross the boundary: JSON-compatible data, and references to
    host objects, which [json.dumps] refuses. *)
Inductive pyvalue : Type :=
| VNone
| VBool (b : bool)
| VInt (n : Z)
| VStr (s : string)
| VList (items : list pyvalue)
| VDict (entries : list (string * pyvalue))
| VObject (id : nat).

(** An instance of [Exception]: [type(e).__name__] and [str(e)]. *)
Record exn : Type := mkExn {
  exn_name : string;
  exn_message : string
}.

Definition KeyError (key : string) : exn := mkExn "KeyError" key.
Definition TypeError (msg : string) : exn := mkExn "TypeError" msg.
Definition AttributeError (msg : string) : exn := mkExn "AttributeError" msg.

(** What calling a host callable does: it returns a value or raises. *)
Inductive outcome : Type :=
| Returns (v : pyvalue)
| Raises (e : exn).

(** *** Dictionaries: association lists in insertion order *)

Section Dict.
Context {V : Type}.

(** [d.get(k)] *)
Fixpoint dict_get (k : string) (d : list (string * V)) : option V :=
  match d with
  | [] => None
  | (k', v) :: d' => if String.eqb k k' then Some v else dict_get k d'
  end.

(** [d[k] = v]: an existing key keeps its place, a new one goes last. *)
Fixpoint dict_set (k : string) (v : V) (d : list (string * V)) : list (string * V) :=
  match d with
  | [] => [(k, v)]
  | (k', v') :: d' =>
      if String.eqb k k' then (k, v) :: d' else (k', v') :: dict_set k v d'
  end.

(** [del d[k]] for a key that is present: no entry for [k] is left. *)
Definition dict_del (k : string) (d : list (string * V)) : list (string * V) :=
  filter (fun kv => negb (String.eqb k (fst kv))) d.

(** [d.update(e)] *)
Definition dict_update (d e : list (string * V)) : list (string * V) :=
  fold_left (fun acc kv => dict_set (fst kv) (snd kv) acc) e d.


End Dict.

(** *** Objects *)

Definition objid : Type := nat.

(** A host object as reflection and calls see it: [obj_attrs] lists the
    names of [dir(obj)] in order, each with the value [getattr] returns for
    it; the flags are the answers of [obj is None], [inspect.ismethod],
    [inspect.isclass], [callable] and [hasattr(obj, "__module__")];
    [obj_args] is [inspect.getfullargspec(obj).args]; [obj_call] is what
    calling [obj] on the unpacked parameters does. *)
Record pyobj : Type := mkObj {
  obj_attrs : list (string * objid);
  obj_is_none : bool;
  obj_ismethod : bool;
  obj_isclass : bool;
  obj_callable : bool;
  obj_has_module : bool;
  obj_args : list string;
  obj_call : pyvalue -> outcome
}.

(** The heap: an object's identity is its index. An identity outside the
    heap stands for a value without attributes of interest, such as a
    number. *)
Definition heap : Type := list pyobj.

Definition plain_value : pyobj :=
  mkObj [] false false false false false []
    (fun _ => Raises (TypeError "object is not callable")).

Definition deref (h : heap) (o : objid) : pyobj := nth o h plain_value.

(** A function registered with the window: its argument names and its
    behaviour. *)
Record pyfunction : Type := mkFunction {
  fn_args : list string;
  fn_call : pyvalue -> outcome
}.

(** A host callable stored by the window or an element: a callback, an
    event handler. *)
Definition callable : Type := pyvalue -> outcome.

(** An element proxy, of which the bridge reads [_event_handlers]. *)
Record Element : Type := mkElement {
  _event_handlers : list (string * list callable)
}.

(** The attributes of the window the bridge uses. A value of [_callbacks]
    that is not callable ([None], stored when no callback was given) is
    [None]. [_elements] is [window.dom._elements]. *)
Record Window : Type := mkWindow {
  _js_api : objid;
  _functions : list (string * pyfunction);
  _callbacks : list (string * option callable);
  _elements : list (string * Element)
}.

End Py.

(** ** [inject_pywebview]: the function catalog *)

Module Stub.
Import Py.

(** The two objects [get_functions] mutates: the list [exposed_objects] of
    the enclosing function and the dictionary [functions]. *)
Record gf_state : Type := mkGf {
  exposed_objects : list objid;
  functions : list (string * list string)
}.

(** [obj in exposed_objects], objects being compared by identity. *)
Definition is_exposed (obj : objid) (st : gf_state) : bool :=
  existsb (Nat.eqb obj) (exposed_objects st).

(** [name.startswith('_')] *)
Definition startswith_underscore (name : string) : bool :=
  match name with
  | EmptyString => false
  | String c _ => Ascii.eqb c underscore
  end.

(** [f"{base_name}.{name}" if base_name else name] *)
Definition full_name (base_name name : string) : string :=
  match base_name with
  | EmptyString => name
  | _ => base_name +++ "." +++ name
  end.

(** [inspect.isclass(attr) or (isinstance(attr, object) and not
    callable(attr) and hasattr(attr, "__module__"))] *)
Definition recurses (attr : pyobj) : bool :=
  obj_isclass attr || (negb (obj_callable attr) && obj_has_module attr).

(** [get_args(attr)[1:]] *)
Definition method_params (attr : pyobj) : list string := tl (obj_args attr).

Section Loop.

(** The recursive call of the loop body. *)
Variable get_functions_rec : objid -> string -> gf_state -> option gf_state.
Variable h : heap.
Variable base_name : string.

(** [for name in dir(obj): ...] *)
Fixpoint walk_attrs (attrs : list (string * objid)) (st : gf_state)
  : option gf_state :=
  match attrs with
  | [] => Some st
  | (name, a) :: rest =>
      let full := full_name base_name name in
      if startswith_underscore name then walk_attrs rest st
      else if obj_ismethod (deref h a) then
        walk_attrs rest
          (mkGf (exposed_objects st)
             (dict_set full (method_params (deref h a)) (functions st)))
      else if recurses (deref h a) then
        match get_functions_rec a full st with
        | Some st' => walk_attrs rest st'
        | None => None
        end
      else walk_attrs rest st
  end.

End Loop.

(** [get_functions]. The recursion follows the object graph, so the
    embedding carries a bound on the depth of the calls; [None] means the
    bound was reached. *)
Fixpoint get_functions (fuel : nat) (h : heap) (obj : objid) (base_name : string)
  (st : gf_state) : option gf_state :=
  match fuel with
  | 0 => None
  | S fuel' =>
      if is_exposed obj st then Some st
      else
        walk_attrs (get_functions fuel' h) h base_name
          (obj_attrs (deref h obj))
          (mkGf (exposed_objects st ++ [obj]) (functions st))
  end.


(** The call [get_functions(window._js_api)] of [generate_func], started
    with an empty [exposed_objects] and a fresh dictionary. A depth of one
    more than the number of objects is always enough. *)
Definition discover (h : heap) (window : Window) : option gf_state :=
  get_functions (S (List.length h)) h (_js_api window) "" (mkGf [] []).



(** *** What the catalog is measured against *)

(** A public attribute that is a bound method gets an entry; one that is a
    class or a plain object is entered; [is_public_callable] is the wider
    test of being public and callable. *)
Definition is_public_method (h : heap) (kv : string * objid) : bool :=
  negb (startswith_underscore (fst kv)) && obj_ismethod (deref h (snd kv)).


Definition is_child (h : heap) (kv : string * objid) : bool :=
  negb (startswith_underscore (fst kv))
  && negb (obj_ismethod (deref h (snd kv)))
  && recurses (deref h (snd kv)).

Definition public_method_count (h : heap) (o : objid) : nat :=
  List.length (filter (is_public_method h) (obj_attrs (deref h o))).



(** An object together with a dotted path that leads to it. *)
Inductive has_path (h : heap) (root : objid) : objid -> string -> Prop :=
| path_root : has_path h root root ""
| path_attr (o : objid) (b n : string) (a : objid) (s : string) :
    has_path h root o b ->
    In (n, a) (obj_attrs (deref h o)) ->
    is_child h (n, a) = true ->
    s = full_name b n ->
    has_path h root a s.

(** Attribute names as Python has them: those of one object are pairwise
    distinct, and a public one is not empty and holds no dot. *)
Fixpoint no_dot (s : string) : bool :=
  match s with
  | EmptyString => true
  | String c s' => negb (Ascii.eqb c dot) && no_dot s'
  end.

Definition plain_name (n : string) : bool :=
  negb (String.eqb n "") && no_dot n.

Fixpoint distinct (names : list string) : bool :=
  match names with
  | [] => true
  | n :: rest => negb (existsb (String.eqb n) rest) && distinct rest
  end.

Definition wf_object (ob : pyobj) : bool :=
  distinct (map fst (obj_attrs ob))
  && forallb (fun kv => startswith_underscore (fst kv) || plain_name (fst kv))
       (obj_attrs ob).

Definition wf_heap (h : heap) : bool := forallb wf_object h.

(** One step of the walk that wrote into [functions]: the object, the base
    name it was entered with, and the attribute. *)
Record item : Type := mkItem {
  owner : objid;
  obase : string;
  oname : string;
  oattr : objid
}.

Definition entry_of (h : heap) (it : item) : string * list string :=
  (full_name (obase it) (oname it), method_params (deref h (oattr it))).

Definition total (f : objid -> nat) (l : list objid) : nat := list_sum (map f l).

Definition key_of (it : item) : objid * string := (owner it, oname it).

(** What holds of the state of the walk at every moment, in terms of the
    base name each visited object was entered with and of the writes into
    [functions] so far. *)
Definition walk_invariant (h : heap) (root : objid) (st : gf_state)
  (bases : list (objid * string)) (log : list item) : Prop :=
  map fst bases = exposed_objects st
  /\ functions st = dict_update [] (map (entry_of h) log)
  /\ (forall it, In it log ->
        In (owner it, obase it) bases
        /\ In (oname it, oattr it) (obj_attrs (deref h (owner it)))
        /\ is_public_method h (oname it, oattr it) = true)
  /\ (forall o b, In (o, b) bases -> has_path h root o b)
  /\ NoDup (exposed_objects st)
  /\ NoDup (map key_of log).

(** The children of the objects [os] are all in [exposed]. *)
Definition children_in (h : heap) (os exposed : list objid) : Prop :=
  forall o n a,
    In o os -> In (n, a) (obj_attrs (deref h o)) -> is_child h (n, a) = true ->
    In a exposed.

(** What one call of [get_functions] on [obj] adds to the state. *)
Definition call_spec (h : heap) (root : objid) (obj : objid) (st st' : gf_state)
  (bases : list (objid * string)) (log : list item) : Prop :=
  exists nb nl,
    walk_invariant h root st' (bases ++ nb) (log ++ nl)
    /\ In obj (exposed_objects st')
    /\ (forall it, In it nl -> In (owner it) (map fst nb))
    /\ List.length nl = total (public_method_count h) (map fst nb)
    /\ children_in h (map fst nb) (exposed_objects st').


(** An object with a method, a private attribute, and a child that refers
    back to it. *)
Definition api_with_cycle : heap :=
  [ mkObj [("_secret", 3); ("greet", 1); ("sub", 2)] false false false false true []
      (fun _ => Raises (TypeError "not callable"));
    mkObj [] false true false true true ["self"; "name"] (fun _ => Returns (VStr "hello"));
    mkObj [("parent", 0); ("run", 4)] false false false false true []
      (fun _ => Raises (TypeError "not callable"));
    mkObj [] false true false true true ["self"] (fun _ => Returns VNone);
    mkObj [] false true false true true ["self"; "x"; "y"] (fun _ => Returns VNone) ].



End Stub.

(** ** [js_bridge_call]: the dispatcher *)

Module Bridge.
Import Py.

(** What the dispatcher does to the outside, in the order it happens. *)
Inductive effect : Type :=
| Move (param : pyvalue)
| LogError (msg : string)
| Invoke (value_id : string) (value : pyvalue)
| EvaluateJs (code : string).

(** A started [Thread]: its target with what the target closes over. *)
Inductive thread : Type :=
| CallThread (func : callable) (func_name : string) (func_params : pyvalue)
    (value_id : string)
| HandlerThread (handler : callable) (event : pyvalue).

(** The state a call of [js_bridge_call] reads and writes: the window, the
    list [_dnd_state['paths']] of the process, the effects of the calling
    thread so far, and the threads started so far. *)
Record world : Type := mkWorld {
  window : Window;
  dnd_paths : list (string * string);
  trace : list effect;
  threads : list thread
}.

(** A computation on the world that returns or raises; the world at the
    moment of the exception is kept. *)
Definition M (A : Type) : Type := world -> (A + exn) * world.

Definition ret {A : Type} (a : A) : M A := fun w => (inl a, w).

Definition raise {A : Type} (e : exn) : M A := fun w => (inr e, w).

Definition bind {A B : Type} (c : M A) (k : A -> M B) : M B :=
  fun w =>
    match c w with
    | (inl a, w') => k a w'
    | (inr e, w') => (inr e, w')
    end.

Definition lift {A : Type} (r : A + exn) : M A :=
  match r with
  | inl a => ret a
  | inr e => raise e
  end.

Notation "x <- c ;; k" := (bind c (fun x => k))
  (at level 61, c at next level, right associativity).
Notation "c ;;; k" := (bind c (fun _ => k))
  (at level 61, right associativity).

Definition emit (e : effect) : M unit :=
  fun w => (inl tt, mkWorld (window w) (dnd_paths w) (trace w ++ [e]) (threads w)).

(** [Thread(target=...).start()]; creating and starting a thread is taken
    to succeed. *)
Definition start (t : thread) : M unit :=
  fun w => (inl tt, mkWorld (window w) (dnd_paths w) (trace w) (threads w ++ [t])).

Definition get_window : M Window := fun w => (inl (window w), w).

Definition get_paths : M (list (string * string)) := fun w => (inl (dnd_paths w), w).

Definition set_paths (paths : list (string * string)) : M unit :=
  fun w => (inl tt, mkWorld (window w) paths (trace w) (threads w)).

Definition set_callbacks (cbs : list (string * option callable)) : M unit :=
  fun w =>
    (inl tt,
     mkWorld
       (mkWindow (_js_api (window w)) (_functions (window w)) cbs
          (_elements (window w)))
       (dnd_paths w) (trace w) (threads w)).

(** *** Operations on values *)

(** [v[k]] for a string key. *)
Definition subscript (v : pyvalue) (k : string) : pyvalue + exn :=
  match v with
  | VDict d =>
      match dict_get k d with
      | Some x => inl x
      | None => inr (KeyError k)
      end
  | _ => inr (TypeError "indices must be integers or the object is not subscriptable")
  end.

(** [v.get(k, default)], a method of dictionaries. *)
Definition get_default (v : pyvalue) (k : string) (default : pyvalue)
  : pyvalue + exn :=
  match v with
  | VDict d =>
      match dict_get k d with
      | Some x => inl x
      | None => inl default
      end
  | _ => inr (AttributeError "object has no attribute get")
  end.

(** [d.get(key)] and [d.get(key, [])] on a dictionary of the host keyed by
    strings, for a key that is any value: a key that is no string is not
    found, one that cannot be hashed raises. *)
Definition lookup_value {V : Type} (key : pyvalue) (d : list (string * V))
  : option V + exn :=
  match key with
  | VStr k => inl (dict_get k d)
  | VList _ | VDict _ => inr (TypeError "unhashable type")
  | _ => inl None
  end.

(** [for x in v]: the elements a loop over [v] sees. *)
Definition iterate (v : pyvalue) : list pyvalue + exn :=
  match v with
  | VList items => inl items
  | VDict d => inl (map (fun kv => VStr (fst kv)) d)
  | VStr s => inl (map (fun c => VStr (str1 c)) (list_ascii_of_string s))
  | _ => inr (TypeError "object is not iterable")
  end.

(** [s == v] for a string [s]. *)
Definition str_eq_value (s : string) (v : pyvalue) : bool :=
  match v with
  | VStr s' => String.eqb s s'
  | _ => false
  end.

(** [attr_str.split('.')] *)
Fixpoint split_dot (s : string) : list string :=
  match s with
  | EmptyString => [""]
  | String c s' =>
      if Ascii.eqb c dot then "" :: split_dot s'
      else
        match split_dot s' with
        | [] => [str1 c]
        | word :: words => String c word :: words
        end
  end.

(** [getattr(obj, attr, None)] followed by the test [obj is None]. *)
Definition getattr_not_none (h : heap) (obj : objid) (attr : string) : option objid :=
  match dict_get attr (obj_attrs (deref h obj)) with
  | Some a => if obj_is_none (deref h a) then None else Some a
  | None => None
  end.

Fixpoint walk_attributes (h : heap) (obj : objid) (attributes : list string)
  : option objid :=
  match attributes with
  | [] => Some obj
  | attr :: rest =>
      match getattr_not_none h obj attr with
      | Some obj' => walk_attributes h obj' rest
      | None => None
      end
  end.

Definition get_nested_attribute (h : heap) (obj : objid) (attr_str : string)
  : option objid :=
  walk_attributes h obj (split_dot attr_str).

(** [window._functions.get(func_name) or
    get_nested_attribute(window._js_api, func_name)]: a registered function
    is a true value, so the attribute walk runs only when none is found. *)
Definition resolve (h : heap) (window : Window) (func_name : string)
  : option callable :=
  match dict_get func_name (_functions window) with
  | Some f => Some (fn_call f)
  | None =>
      match get_nested_attribute h (_js_api window) func_name with
      | Some a => Some (obj_call (deref h a))
      | None => None
      end
  end.


(** *** The statements evaluated in the content *)

(** The two replacements applied to the encoded result: a backslash is
    doubled, then a single quote gets a backslash. *)
Definition js_escape (s : string) : string :=
  replace_char squote (str2 backslash squote)
    (replace_char backslash (str2 backslash backslash) s).

Definition quoted (s : string) : string := str1 dquote +++ s +++ str1 dquote.

Definition single_quoted (s : string) : string := str1 squote +++ s +++ str1 squote.

(** [window.pywebview._returnValues["{func_name}"]["{value_id}"]] *)
Definition result_slot (func_name value_id : string) : string :=
  "window.pywebview._returnValues[" +++ quoted func_name +++ "]["
    +++ quoted value_id +++ "]".

Definition value_statement (func_name value_id result : string) : string :=
  result_slot func_name value_id +++ " = {value: " +++ single_quoted result +++ "}".

Definition error_statement (func_name value_id result : string) : string :=
  result_slot func_name value_id +++ " = {isError: true, value: "
    +++ single_quoted result +++ "}".

Section Dispatch.

(** Library functions the dispatcher calls. *)
Variable json_dumps : pyvalue -> string + exn.
Variable json_loads : pyvalue -> pyvalue + exn.
Variable unquote : string -> string.
Variable py_str : pyvalue -> string.
Variable format_exc : exn -> string.

(** [{'message': str(e), 'name': type(e).__name__, 'stack':
    traceback.format_exc()}] *)
Definition error_value (e : exn) : pyvalue :=
  VDict [("message", VStr (exn_message e));
         ("name", VStr (exn_name e));
         ("stack", VStr (format_exc e))].

(** The [try] block of [_call]: the call and the encoding of its result. *)
Definition try_call (func : callable) (func_name : string) (func_params : pyvalue)
  (value_id : string) : string + exn :=
  match func func_params with
  | Returns result =>
      match json_dumps result with
      | inl s => inl (value_statement func_name value_id (js_escape s))
      | inr e => inr e
      end
  | Raises e => inr e
  end.

(** [_call], the target of the worker thread: its effects, and the exception
    that ends the thread if one escapes. *)
Definition _call (func : callable) (func_name : string) (func_params : pyvalue)
  (value_id : string) : list effect * option exn :=
  match try_call func func_name func_params value_id with
  | inl code => ([EvaluateJs code], None)
  | inr e =>
      match json_dumps (error_value e) with
      | inl s =>
          ([LogError (format_exc e);
            EvaluateJs (error_statement func_name value_id (js_escape s))],
           None)
      | inr e' => ([LogError (format_exc e)], Some e')
      end
  end.

Definition run_thread (t : thread) : list effect * option exn :=
  match t with
  | CallThread func func_name func_params value_id =>
      _call func func_name func_params value_id
  | HandlerThread handler event =>
      match handler event with
      | Returns _ => ([], None)
      | Raises e => ([], Some e)
      end
  end.

(** *** The drop event *)

(** The list comprehension over [_dnd_state['paths']]: [file['name']] is
    evaluated once per entry, so not at all when there is none. *)
Definition matching_paths (paths : list (string * string)) (file : pyvalue)
  : list (string * string) + exn :=
  match paths with
  | [] => inl []
  | _ =>
      match subscript file "name" with
      | inl name => inl (filter (fun item => str_eq_value (unquote (fst item)) name) paths)
      | inr e => inr e
      end
  end.

Definition pair_eqb (x y : string * string) : bool :=
  String.eqb (fst x) (fst y) && String.eqb (snd x) (snd y).

(** [paths.remove(x)]: the first equal entry goes. *)
Fixpoint list_remove (x : string * string) (paths : list (string * string))
  : list (string * string) :=
  match paths with
  | [] => []
  | y :: paths' => if pair_eqb y x then paths' else y :: list_remove x paths'
  end.

(** [file['pywebviewFullPath'] = value] *)
Definition set_full_path (file : pyvalue) (value : string) : pyvalue + exn :=
  match file with
  | VDict d => inl (VDict (dict_set "pywebviewFullPath" (VStr value) d))
  | _ => inr (TypeError "object does not support item assignment")
  end.

(** The body of the loop over the dropped files, on the registry [paths]:
    the file as the loop leaves it, and the registry. *)
Definition drop_file (paths : list (string * string)) (file : pyvalue)
  : (pyvalue * list (string * string)) + exn :=
  match matching_paths paths file with
  | inr e => inr e
  | inl [] => inl (file, paths)
  | inl (first :: _) =>
      match set_full_path file (unquote (snd first)) with
      | inl file' => inl (file', list_remove first paths)
      | inr e => inr e
      end
  end.

Fixpoint drop_files (files : list pyvalue) : M (list pyvalue) :=
  match files with
  | [] => ret []
  | file :: rest =>
      paths <- get_paths ;;
      r <- lift (drop_file paths file) ;;
      set_paths (snd r) ;;;
      rest' <- drop_files rest ;;
      ret (fst r :: rest')
  end.

(** The files of the event are changed in place: the event the handlers
    receive holds them. A default list from [get] belongs to no event. *)
Definition with_files (event data_transfer : pyvalue) (files : list pyvalue)
  : pyvalue :=
  match event, data_transfer with
  | VDict ev, VDict dt =>
      match dict_get "files" dt with
      | Some (VList _) =>
          VDict (dict_set "dataTransfer" (VDict (dict_set "files" (VList files) dt)) ev)
      | _ => event
      end
  | _, _ => event
  end.

Definition process_drop (event : pyvalue) : M pyvalue :=
  data_transfer <- lift (subscript event "dataTransfer") ;;
  files <- lift (get_default data_transfer "files" (VList [])) ;;
  items <- lift (iterate files) ;;
  items' <- drop_files items ;;
  ret (with_files event data_transfer items').

Fixpoint start_handlers (handlers : list callable) (event : pyvalue) : M unit :=
  match handlers with
  | [] => ret tt
  | handler :: rest =>
      start (HandlerThread handler event) ;;;
      start_handlers rest event
  end.

Definition event_handler (param : pyvalue) : M unit :=
  event <- lift (subscript param "event") ;;
  node_id <- lift (subscript param "nodeId") ;;
  w <- get_window ;;
  element <- lift (lookup_value node_id (_elements w)) ;;
  match element with
  | None => ret tt
  | Some element =>
      type <- lift (subscript event "type") ;;
      event' <- (if str_eq_value "drop" type then process_drop event else ret event) ;;
      handlers <- lift (lookup_value type (_event_handlers element)) ;;
      start_handlers (match handlers with Some l => l | None => [] end) event'
  end.

(** *** The asynchronous result *)

(** [json.loads(param) if param is not None else None] *)
Definition async_value (param : pyvalue) : pyvalue + exn :=
  match param with
  | VNone => inl VNone
  | _ => json_loads param
  end.

Definition async_callback (param : pyvalue) (value_id : string) : M unit :=
  value <- lift (async_value param) ;;
  w <- get_window ;;
  match dict_get value_id (_callbacks w) with
  | None => raise (KeyError value_id)
  | Some (Some callback) =>
      emit (Invoke value_id value) ;;;
      match callback value with
      | Returns _ => set_callbacks (dict_del value_id (_callbacks w))
      | Raises e => raise e
      end
  | Some None =>
      emit (LogError
              ("Async function executed and callback is not callable. Returned value "
                 +++ py_str value)) ;;;
      set_callbacks (dict_del value_id (_callbacks w))
  end.

(** *** [js_bridge_call] *)

Definition js_bridge_call (h : heap) (func_name : string) (param : pyvalue)
  (value_id : string) : M unit :=
  if String.eqb func_name "pywebviewMoveWindow" then emit (Move param)
  else if String.eqb func_name "pywebviewEventHandler" then event_handler param
  else if String.eqb func_name "pywebviewAsyncCallback" then
    async_callback param value_id
  else
    w <- get_window ;;
    match resolve h w func_name with
    | Some func => start (CallThread func func_name param value_id)
    | None => emit (LogError ("Function " +++ func_name +++ "() does not exist"))
    end.

(** The entries of the registry whose decoded name is [name]. *)
Definition pending (name : string) (paths : list (string * string))
  : list (string * string) :=
  filter (fun item => String.eqb (unquote (fst item)) name) paths.

(** The event a handler thread was started with. *)
Definition thread_event (t : thread) : option pyvalue :=
  match t with
  | HandlerThread _ event => Some event
  | CallThread _ _ _ _ => None
  end.

(** The statements evaluated in the content once the effects have happened. *)
Fixpoint evaluated (effects : list effect) : list string :=
  match effects with
  | [] => []
  | EvaluateJs code :: rest => code :: evaluated rest
  | _ :: rest => evaluated rest
  end.

(** All result deliveries a world leads to: those of the calling thread and
    those of every started thread, run to its end. *)
Definition deliveries (w : world) : list string :=
  evaluated (trace w) ++ flat_map (fun t => evaluated (fst (run_thread t))) (threads w).

End Dispatch.

(** A file descriptor with the given name. *)
Definition named (name : string) (file : pyvalue) : Prop :=
  subscript file "name" = inl (VStr name).

(** *** Data for closed examples *)

(** Library functions for the examples: an encoder that knows the
    values the examples use, and the identity for decoding and unquoting,
    which is what [urllib.parse.unquote] does on text without a percent
    sign. *)
Definition toy_dumps (v : pyvalue) : string + exn :=
  match v with
  | VStr s => inl (quoted s)
  | VObject _ => inr (TypeError "Object is not JSON serializable")
  | _ => inl "{}"
  end.

Definition toy_loads (v : pyvalue) : pyvalue + exn := inl v.

Definition toy_str (v : pyvalue) : string := "value".

Definition toy_format_exc (e : exn) : string :=
  "Traceback: " +++ exn_name e +++ ": " +++ exn_message e.

Definition greet : pyfunction :=
  mkFunction ["name"] (fun _ => Returns (VStr "hello world")).

Definition failing : pyfunction :=
  mkFunction [] (fun _ => Raises (mkExn "ValueError" "bad input")).

Definition on_result : callable := fun _ => Returns VNone.

Definition example_window : Window :=
  mkWindow 0
    [("greet", greet); ("failing", failing); ("pywebviewMoveWindow", greet)]
    [("c1", Some on_result)] [].

Definition example_world : world := mkWorld example_window [] [] [].

(** A page element with one handler for [drop], and a registry in which two
    entries carry the name [a.txt]. *)
Definition on_drop : callable := fun _ => Returns VNone.

Definition drop_window : Window :=
  mkWindow 0 [] [] [("node1", mkElement [("drop", [on_drop])])].

Definition drop_world : world :=
  mkWorld drop_window [("a.txt", "/x/a.txt"); ("a.txt", "/y/a.txt")] [] [].

Definition a_txt : pyvalue := VDict [("name", VStr "a.txt")].

Definition drop_event (files : list pyvalue) : pyvalue :=
  VDict [("type", VStr "drop"); ("dataTransfer", VDict [("files", VList files)])].

Definition drop_param : pyvalue :=
  VDict [("event", drop_event [a_txt]); ("nodeId", VStr "node1")].

End Bridge.

(** ** The text [load_js_files] assembles *)

Module LoadJs.
Import SortJs.

Section Load.
Variable stem : string -> string.
Variable read : string -> string.
Variable format : string -> list (string * string) -> string.
Variable api_params customize_params : list (string * string).

(** The dictionary [params] of a fragment that is not skipped. *)
Definition fragment_params (name : string) : list (string * string) :=
  if String.eqb name "api" then api_params
  else if String.eqb name "customize" then customize_params
  else [].

(** [content % params] for a file. *)
Definition render (file : string) : string :=
  format (read file) (fragment_params (stem file)).

Definition text_of (files : list string) : string :=
  fold_right (fun file acc => render file +++ acc) "" files.

End Load.

End LoadJs.

(** ** The other operators of [DOMEvent] *)

Module DomEventOps.
Import Py DomEvent.

Definition ValueError (msg : string) : exn := mkExn "ValueError" msg.

Section DOMEvent.
Variable handler : Type.
Variable handler_eq_dec : forall x y : handler, {x = y} + {x <> y}.
Variable Element : Type.
Variable element_on : string -> handler -> Element -> Element.
Variable element_off : string -> handler -> Element -> Element.

(** [__add__] has the body of [__iadd__]. *)
Definition __add__ (self : DOMEvent handler Element) (item : handler)
  : DOMEvent handler Element :=
  {| event := event self;
     element := element_on (event self) item (element self);
     _items := _items self ++ [item];
     log := log self |}.

(** [__sub__]: [self._items.remove(item)] raises [ValueError] when the item
    is absent, before the element is touched. *)
Definition __sub__ (self : DOMEvent handler Element) (item : handler)
  : DOMEvent handler Element + exn :=
  if contains handler_eq_dec item (_items self) then
    inl {| event := event self;
           element := element_off (event self) item (element self);
           _items := list_remove handler_eq_dec item (_items self);
           log := log self |}
  else inr (ValueError "list.remove(x): x not in list").

End DOMEvent.

Arguments __add__ {handler Element} element_on self item.
Arguments __sub__ {handler} handler_eq_dec {Element} element_off self item.

End DomEventOps.

(** ** Small functions of [webview/util.py] *)

Module Util.
Import Py.

(** *** [is_app], [is_local_url], [needs_server] *)

(** What is passed as a url: a WSGI or ASGI application (a callable),
    [None], or a string. *)
Inductive url : Type :=
| UrlApp
| UrlNone
| UrlStr (s : string).

(** [callable(url)] *)
Definition is_app (u : url) : bool :=
  match u with
  | UrlApp => true
  | _ => false
  end.

(** [not url] *)
Definition is_false (u : url) : bool :=
  match u with
  | UrlNone => true
  | UrlStr EmptyString => true
  | _ => false
  end.

(** [url.startswith(p)], reached for strings only. *)
Definition startswith (p : string) (u : url) : bool :=
  match u with
  | UrlStr s => String.prefix p s
  | _ => false
  end.

Definition is_local_url (u : url) : bool :=
  negb (is_app u
        || (is_false u || startswith "http://" u || startswith "https://" u
            || startswith "file://" u)).

(** [bool([url for url in urls if is_app(url) or is_local_url(url)])] *)
Definition needs_server (urls : list url) : bool :=
  match filter (fun u => is_app u || is_local_url u) urls with
  | [] => false
  | _ => true
  end.

(** *** [environ_append] *)

(** [sep.join(values)] *)
Fixpoint join (sep : string) (values : list string) : string :=
  match values with
  | [] => ""
  | [v] => v
  | v :: rest => v +++ sep +++ join sep rest
  end.

(** [os.environ.get(key, '')] *)
Definition existing (key : string) (environ : list (string * string)) : string :=
  match dict_get key environ with
  | Some v => v
  | None => ""
  end.

(** [values] after [if existing: values = [existing] + values]; a string is
    a true value when it is not empty. *)
Definition with_existing (key : string) (values : list string)
  (environ : list (string * string)) : list string :=
  match existing key environ with
  | EmptyString => values
  | e => e :: values
  end.

(** [os.environ] as a dictionary. *)
Definition environ_append (key : string) (values : list string) (sep : string)
  (environ : list (string * string)) : list (string * string) :=
  dict_set key (join sep (with_existing key values environ)) environ.

(** *** [css_to_camel] *)

(** [s.split(c)] for a separator of one character. *)
Fixpoint split_char (c : ascii) (s : string) : list string :=
  match s with
  | EmptyString => [""]
  | String a s' =>
      if Ascii.eqb a c then "" :: split_char c s'
      else
        match split_char c s' with
        | [] => [str1 a]
        | word :: words => String a word :: words
        end
  end.

Definition hyphen : ascii := "-"%char.

Fixpoint no_char (c : ascii) (s : string) : bool :=
  match s with
  | EmptyString => true
  | String a s' => negb (Ascii.eqb a c) && no_char c s'
  end.

(** [''.join(words)] *)
Definition concat_all (words : list string) : string :=
  fold_right String.append "" words.

Section Css.

(** [str.capitalize] *)
Variable capitalize : string -> string.

Definition css_to_camel (css_case_string : string) : string :=
  let words := split_char hyphen css_case_string in
  hd "" words +++ concat_all (map capitalize (tl words)).

End Css.

(** [str.capitalize] on ASCII text. *)
Definition upper (c : ascii) : ascii :=
  let n := nat_of_ascii c in
  if (Nat.leb 97 n && Nat.leb n 122)%bool then ascii_of_nat (n - 32) else c.

Definition lower (c : ascii) : ascii :=
  let n := nat_of_ascii c in
  if (Nat.leb 65 n && Nat.leb n 90)%bool then ascii_of_nat (n + 32) else c.

Fixpoint map_string (f : ascii -> ascii) (s : string) : string :=
  match s with
  | EmptyString => EmptyString
  | String c s' => String (f c) (map_string f s')
  end.

Definition ascii_capitalize (s : string) : string :=
  match s with
  | EmptyString => EmptyString
  | String c s' => String (upper c) (map_string lower s')
  end.

(** *** [interop_dll_path] *)

Definition FileNotFoundError (msg : string) : exn := mkExn "FileNotFoundError" msg.

Section Interop.

(** What the function reads from the interpreter and the file system:
    [architecture()[0] == '64bit'], the directory of this module, the
    directory of [sys.argv[0]], [sys._MEIPASS] when it is set,
    [getattr(sys, 'frozen', False)], [sys.executable], [os.path.join] and
    [os.path.exists]. *)
Variable arch64 : bool.
Variable module_dir : string.
Variable argv_dir : string.
Variable meipass : option string.
Variable frozen : bool.
Variable executable : string.
Variable path_join : list string -> string.
Variable path_exists : string -> bool.

Definition interop_name (dll_name : string) : string :=
  if String.eqb dll_name "WebBrowserInterop.dll" then
    if arch64 then "WebBrowserInterop.x64.dll" else "WebBrowserInterop.x86.dll"
  else dll_name.

(** The paths tried, in order; the last is the one of the [try] block,
    where [dll_path] keeps its value when the program is not frozen. *)
Definition unfrozen_path (name : string) : string := path_join [module_dir; "lib"; name].

Definition runtimes_path (name : string) : string :=
  path_join [module_dir; "lib"; "runtimes"; name; "native"].

Definition argv_path (name : string) : string := path_join [argv_dir; name].

Definition onefile_path (name : string) : string :=
  match meipass with
  | Some dir => path_join [dir; name]
  | None => if frozen then path_join [executable; name] else argv_path name
  end.

Definition interop_dll_path (dll_name : string) : string + exn :=
  let name := interop_name dll_name in
  if path_exists (unfrozen_path name) then inl (unfrozen_path name)
  else if path_exists (runtimes_path name) then inl (runtimes_path name)
  else if path_exists (argv_path name) then inl (argv_path name)
  else if path_exists (onefile_path name) then inl (onefile_path name)
  else inr (FileNotFoundError ("Cannot find " +++ name)).

End Interop.

(** *** Reading an escaped string back *)

(** The body of a JavaScript string literal delimited by [q]: a backslash
    takes the next character with it; the body is in order when no bare [q]
    occurs in it and it does not end on a lone backslash. *)
Fixpoint literal_body (q : ascii) (s : string) : bool :=
  match s with
  | EmptyString => true
  | String c s' =>
      if Ascii.eqb c backslash then
        match s' with
        | EmptyString => false
        | String _ s'' => literal_body q s''
        end
      else if Ascii.eqb c q then false
      else literal_body q s'
  end.

(** What one character becomes under [js_escape]. *)
Definition js_escape_char (c : ascii) : string :=
  if Ascii.eqb c backslash then str2 backslash backslash
  else if Ascii.eqb c squote then str2 backslash squote
  else str1 c.

(** The reader of [js_escape]. *)
Fixpoint js_unescape (s : string) : string :=
  match s with
  | EmptyString => EmptyString
  | String c s' =>
      if Ascii.eqb c backslash then
        match s' with
        | EmptyString => str1 c
        | String d s'' => String d (js_unescape s'')
        end
      else String c (js_unescape s')
  end.

(** What one character becomes under [escape_quotes]. *)
Definition escape_quotes_char (c : ascii) : string :=
  if Ascii.eqb c dquote then str2 backslash dquote
  else if Ascii.eqb c squote then str2 backslash squote
  else str1 c.

(** The reader of [escape_quotes]: a backslash that stands before a quote
    was put there. *)
Fixpoint unescape_quotes (s : string) : string :=
  match s with
  | EmptyString => EmptyString
  | String c s' =>
      match s' with
      | String d s'' =>
          if Ascii.eqb c backslash && (Ascii.eqb d dquote || Ascii.eqb d squote)
          then String d (unescape_quotes s'')
          else String c (unescape_quotes s')
      | EmptyString => str1 c
      end
  end.

End Util.

(** ** What the relay may do to a dropped file *)

Module BridgeOps.
Import Py.

(** Nothing, or attach the decoded path of an entry of the registry. *)
Definition attached (unquote : string -> string) (paths : list (string * string))
  (file file' : pyvalue) : Prop :=
  file' = file
  \/ exists d item,
       file = VDict d /\ In item paths
       /\ file' = VDict (dict_set "pywebviewFullPath" (VStr (unquote (snd item))) d).

End BridgeOps.

(** ** [None] among the objects *)

Module StubMore.
Import Py Stub.

(** [None] is no bound method, no class, and has no [__module__]. *)
Definition none_consistent (h : heap) : bool :=
  forallb
    (fun ob => negb (obj_is_none ob) || (negb (obj_ismethod ob) && negb (recurses ob)))
    h.

End StubMore.

(** * Lemmas and theorems *)

(** ** Facts on strings *)

Lemma string_app_assoc (s t u : string) : (s +++ t) +++ u = s +++ (t +++ u).
Proof. induction s as [|c s IH]; simpl; [reflexivity|now rewrite IH]. Qed.

Lemma string_app_nil_r (s : string) : s +++ "" = s.
Proof. induction s as [|c s IH]; simpl; [reflexivity|now rewrite IH]. Qed.

(** ** Facts on [replace_char] *)

Lemma replace_char_app old new s t :
  replace_char old new (s +++ t) = replace_char old new s +++ replace_char old new t.
Proof.
  induction s as [|c s IH]; simpl; [reflexivity|].
  destruct (Ascii.eqb c old); simpl; rewrite IH; [|reflexivity].
  now rewrite string_app_assoc.
Qed.

Lemma replace_char_cons old new c s :
  replace_char old new (String c s) =
  replace_char old new (str1 c) +++ replace_char old new s.
Proof.
  change (String c s) with (str1 c +++ s). apply replace_char_app.
Qed.

(** ** [escape_string] *)

Module EscapeFacts.
Import Escape.

Lemma escape_string_cons c s :
  escape_string (String c s) = escape_char c +++ escape_string s.
Proof.
  unfold escape_string, escape_char.
  rewrite (replace_char_cons backslash _ c s).
  rewrite !replace_char_app.
  f_equal.
  destruct (Ascii.eqb_spec c backslash) as [->|Hb]; [reflexivity|].
  destruct (Ascii.eqb_spec c dquote) as [->|Hq]; [reflexivity|].
  destruct (Ascii.eqb_spec c newline) as [->|Hn]; [reflexivity|].
  destruct (Ascii.eqb_spec c creturn) as [->|Hr]; [reflexivity|].
  simpl.
  apply Ascii.eqb_neq in Hb, Hq, Hn, Hr.
  rewrite Hb. simpl. rewrite Hq. simpl. rewrite Hn. simpl. rewrite Hr.
  reflexivity.
Qed.

Lemma unescape_escape_char c s :
  unescape (escape_char c +++ s) = String c (unescape s).
Proof.
  unfold escape_char.
  destruct (Ascii.eqb_spec c backslash) as [->|Hb]; [reflexivity|].
  destruct (Ascii.eqb_spec c dquote) as [->|Hq]; [reflexivity|].
  destruct (Ascii.eqb_spec c newline) as [->|Hn]; [reflexivity|].
  destruct (Ascii.eqb_spec c creturn) as [->|Hr]; [reflexivity|].
  simpl. apply Ascii.eqb_neq in Hb. now rewrite Hb.
Qed.

Lemma unescape_escape_string s : unescape (escape_string s) = s.
Proof.
  induction s as [|c s IH]; [reflexivity|].
  rewrite escape_string_cons, unescape_escape_char. now rewrite IH.
Qed.

(** C10. [escape_string] is injective: two distinct strings never have the
    same escaped form. *)
Theorem escape_string_injective (s t : string) :
  s <> t -> escape_string s <> escape_string t.
Proof.
  intros Hne Heq. apply Hne.
  rewrite <- (unescape_escape_string s), <- (unescape_escape_string t).
  now rewrite Heq.
Qed.

Lemma escape_string_injective_witness :
  escape_string (str2 "n" newline) <> escape_string (str2 backslash "n").
Proof.
  apply escape_string_injective. discriminate.
Defined.

End EscapeFacts.

(** ** [sort_js_files] *)

Module SortJsFacts.
Import SortJs.

Lemma list_insert_perm {A : Type} (i : nat) (x : A) (l : list A) :
  Permutation (x :: l) (list_insert i x l).
Proof.
  unfold list_insert.
  rewrite <- (firstn_skipn i l) at 1.
  apply Permutation_middle.
Qed.

Lemma insert_by_perm {A : Type} (key : A -> nat) (x : A) (l : list A) :
  Permutation (x :: l) (insert_by key x l).
Proof.
  induction l as [|y l IH]; simpl; [reflexivity|].
  destruct (Nat.leb (key x) (key y)); [reflexivity|].
  rewrite perm_swap. now apply perm_skip.
Qed.

Lemma sorted_perm {A : Type} (key : A -> nat) (l : list A) :
  Permutation l (sorted key l).
Proof.
  induction l as [|x l IH]; simpl; [reflexivity|].
  rewrite <- insert_by_perm. now apply perm_skip.
Qed.

Section Sort.
Variable stem : string -> string.

Lemma split_files_perm_gen (js_files : list string) acc :
  Permutation
    (fst (fold_left (split_step stem) js_files acc)
       ++ map snd (snd (fold_left (split_step stem) js_files acc)))
    ((fst acc ++ map snd (snd acc)) ++ js_files).
Proof.
  revert acc. induction js_files as [|f l IH]; intros acc; simpl.
  - now rewrite app_nil_r.
  - rewrite IH. unfold split_step.
    destruct (LOAD_ORDER (stem f)); simpl.
    + rewrite map_app. simpl. rewrite <- !app_assoc. simpl.
      apply Permutation_app_head, Permutation_app_head.
      reflexivity.
    + rewrite <- !app_assoc. simpl.
      apply Permutation_app_head, Permutation_middle.
Qed.

Lemma insert_steps_perm (rem : list (string * string)) (ordered : list string) :
  Permutation (fold_left insert_step rem ordered) (ordered ++ map snd rem).
Proof.
  revert ordered. induction rem as [|x rem IH]; intros ordered; simpl.
  - now rewrite app_nil_r.
  - rewrite IH. unfold insert_step.
    rewrite <- list_insert_perm.
    rewrite <- Permutation_middle. reflexivity.
Qed.

(** C8. The list [sort_js_files] returns is a permutation of its input: every
    path comes out as often as it went in, and nothing else does. *)
Theorem sort_js_files_permutation (js_files : list string) :
  Permutation js_files (sort_js_files stem js_files).
Proof.
  unfold sort_js_files, split_files.
  rewrite insert_steps_perm.
  rewrite <- (Permutation_map snd (sorted_perm load_key _)).
  rewrite split_files_perm_gen. reflexivity.
Qed.

(** *** The order of the fragments *)

Lemma split_files_gen (js_files : list string) acc :
  fold_left (split_step stem) js_files acc =
  (fst acc ++ unordered stem js_files,
   snd acc ++ map (fun f => (stem f, f)) (named stem js_files)).
Proof.
  revert acc. induction js_files as [|f l IH]; intros acc; simpl.
  - unfold unordered, named. simpl. rewrite !app_nil_r. now destruct acc.
  - rewrite IH. unfold split_step, unordered, named. simpl.
    destruct (LOAD_ORDER (stem f)); simpl; now rewrite <- !app_assoc.
Qed.

Lemma sort_js_files_unfold (js_files : list string) :
  sort_js_files stem js_files =
  fold_left insert_step
    (sorted load_key (map (fun f => (stem f, f)) (named stem js_files)))
    (unordered stem js_files).
Proof.
  unfold sort_js_files, split_files. now rewrite split_files_gen.
Qed.

Lemma perm3_inv {A : Type} (x y z : A) (l : list A) :
  Permutation [x; y; z] l ->
  l = [x; y; z] \/ l = [x; z; y] \/ l = [y; x; z] \/
  l = [y; z; x] \/ l = [z; x; y] \/ l = [z; y; x].
Proof.
  intros H.
  destruct (Permutation_vs_cons_inv (Permutation_sym H)) as (l1 & l2 & ->).
  apply Permutation_cons_app_inv in H.
  apply Permutation_length_2_inv in H.
  destruct l1 as [|u [|v [|w l1]]]; simpl in *;
    destruct H as [H|H]; try discriminate; inversion H; subst; auto 10.
Qed.

Lemma sorted_three (p a f : string) (l : list string) :
  stem p = "polyfill" -> stem a = "api" -> stem f = "finish" ->
  Permutation [p; a; f] l ->
  sorted load_key (map (fun f => (stem f, f)) l) =
  [("polyfill", p); ("api", a); ("finish", f)].
Proof.
  intros Hp Ha Hf H.
  destruct (perm3_inv _ _ _ _ H) as [->|[->|[->|[->|[->| ->]]]]];
    simpl; rewrite Hp, Ha, Hf; reflexivity.
Qed.

Lemma list_insert_past {A : Type} (n : nat) (x : A) (l : list A) :
  List.length l <= n -> list_insert n x l = l ++ [x].
Proof.
  intros H. unfold list_insert. now rewrite firstn_all2, skipn_all2.
Qed.

Lemma list_insert_SS {A : Type} (n : nat) (x p a : A) (l : list A) :
  list_insert (S (S n)) x (p :: a :: l) = p :: a :: list_insert n x l.
Proof. reflexivity. Qed.

(** With at most 97 fragments outside [LOAD_ORDER], and one fragment of each
    of the three names, the order is the one of the docstring. *)
Lemma sort_js_files_order_small (js_files : list string) (p a f : string) :
  stem p = "polyfill" -> stem a = "api" -> stem f = "finish" ->
  Permutation [p; a; f] (named stem js_files) ->
  List.length (unordered stem js_files) <= 97 ->
  sort_js_files stem js_files = p :: a :: unordered stem js_files ++ [f].
Proof.
  intros Hp Ha Hf H Hlen.
  rewrite sort_js_files_unfold, (sorted_three p a f _ Hp Ha Hf H).
  unfold fold_left, insert_step, load_key, snd, fst.
  change (LOAD_ORDER "polyfill") with (Some 0).
  change (LOAD_ORDER "api") with (Some 1).
  change (LOAD_ORDER "finish") with (Some 99).
  cbv iota beta.
  change (list_insert 0 p (unordered stem js_files)) with (p :: unordered stem js_files).
  change (list_insert 1 a (p :: unordered stem js_files)) with (p :: a :: unordered stem js_files).
  rewrite (list_insert_SS 97), list_insert_past by assumption.
  reflexivity.
Qed.

Lemma unordered_not_named (js_files : list string) (x : string) :
  In x (unordered stem js_files) -> LOAD_ORDER (stem x) = None.
Proof.
  unfold unordered. rewrite filter_In. intros [_ H].
  now destruct (LOAD_ORDER (stem x)).
Qed.

Lemma filter_all {A : Type} (f : A -> bool) (l : list A) :
  (forall x, In x l -> f x = true) -> filter f l = l.
Proof.
  induction l as [|x l IH]; intros H; simpl; [reflexivity|].
  rewrite (H x (or_introl eq_refl)). f_equal. apply IH. intros y Hy. apply H. now right.
Qed.

(** On a platform other than [mshtml] the polyfill is left out and the rest
    keeps its order. *)
Lemma loaded_files_order_small (platform : string) (js_files : list string)
  (p a f : string) :
  stem p = "polyfill" -> stem a = "api" -> stem f = "finish" ->
  Permutation [p; a; f] (named stem js_files) ->
  List.length (unordered stem js_files) <= 97 ->
  String.eqb platform "mshtml" = false ->
  loaded_files stem platform js_files = a :: unordered stem js_files ++ [f].
Proof.
  intros Hp Ha Hf H Hlen Hpl. unfold loaded_files.
  rewrite (sort_js_files_order_small js_files p a f Hp Ha Hf H Hlen).
  assert (Sp : skipped stem platform p = true)
    by (unfold skipped; rewrite Hp, Hpl; reflexivity).
  assert (Sa : skipped stem platform a = false)
    by (unfold skipped; rewrite Ha; reflexivity).
  assert (Sf : skipped stem platform f = false)
    by (unfold skipped; rewrite Hf; reflexivity).
  cbn [filter]. rewrite Sp, Sa. cbn [negb]. f_equal.
  rewrite filter_app. cbn [filter]. rewrite Sf. cbn [negb]. f_equal.
  apply filter_all. intros x Hx.
  apply unordered_not_named in Hx. unfold skipped.
  destruct (String.eqb_spec (stem x) "polyfill") as [E|_].
  - rewrite E in Hx. discriminate.
  - now rewrite andb_false_r.
Qed.

End Sort.

(** C5. On a directory of 101 scripts (polyfill, api, finish and 98 others)
    [sort_js_files] puts [finish.js] at index 99 and one of the other
    fragments after it: the fragment that signals readiness is not last. *)
Theorem sort_js_files_finish_not_last :
  let out := sort_js_files posix_stem many_files in
  nth_error out 99 = Some "js/finish.js"
  /\ last out "" = last many_files ""
  /\ last out "" <> "js/finish.js"
  /\ LOAD_ORDER (posix_stem (last out "")) = None.
Proof.
  vm_compute. repeat split; discriminate.
Qed.

End SortJsFacts.

(** ** [DOMEvent.__isub__] *)

Module DomEventFacts.
Import DomEvent.

Section DOMEvent.
Variable handler : Type.
Variable handler_eq_dec : forall x y : handler, {x = y} + {x <> y}.
Variable handler_str : handler -> string.
Variable Element : Type.
Variable element_off : string -> handler -> Element -> Element.

Lemma contains_false (item : handler) (items : list handler) :
  ~ In item items -> contains handler_eq_dec item items = false.
Proof.
  intros H. unfold contains. now destruct (in_dec handler_eq_dec item items).
Qed.

(** C9. Unsubscribing with [-=] a handler that is not registered leaves the
    handler list of the subscription and the element (with its event-handler
    registry) as they were, and appends one warning to the log; the call
    returns the subscription object, no exception is raised. *)
Theorem isub_unregistered (self : DOMEvent handler Element) (item : handler) :
  ~ In item (_items self) ->
  let self' := __isub__ handler_eq_dec handler_str element_off self item in
  _items self' = _items self
  /\ element self' = element self
  /\ event self' = event self
  /\ log self' =
     log self ++ [Warning ("Event handler " +++ handler_str item +++ " not found")].
Proof.
  intros H. unfold __isub__. rewrite (contains_false _ _ H). simpl. auto.
Qed.

End DOMEvent.

Lemma isub_unregistered_witness :
  let self := mkDOMEvent "click" [("click", [1; 2])] [1; 2] [] in
  let self' :=
    __isub__ Nat.eq_dec (fun _ => "handler")
      (fun (_ : string) (_ : nat) (e : list (string * list nat)) => e) self 3 in
  ~ In 3 (_items self)
  /\ _items self' = [1; 2]
  /\ element self' = [("click", [1; 2])]
  /\ log self' = [Warning "Event handler handler not found"].
Proof.
  assert (H : ~ In 3 [1; 2]) by (simpl; lia).
  split; [exact H|].
  destruct (isub_unregistered nat Nat.eq_dec (fun _ => "handler")
              (list (string * list nat))
              (fun (_ : string) (_ : nat) (e : list (string * list nat)) => e)
              (mkDOMEvent "click" [("click", [1; 2])] [1; 2] []) 3 H)
    as (H1 & H2 & _ & H4).
  repeat split; assumption.
Defined.

End DomEventFacts.

(** ** [get_functions]: termination and the guard on visited objects *)

Module StubFacts.
Import Py Stub.

Lemma is_exposed_In (obj : objid) (st : gf_state) :
  is_exposed obj st = true <-> In obj (exposed_objects st).
Proof.
  unfold is_exposed. rewrite existsb_exists. split.
  - intros (x & Hx & E). apply Nat.eqb_eq in E. now subst.
  - intros H. exists obj. split; [assumption|apply Nat.eqb_refl].
Qed.

Lemma is_exposed_not_In (obj : objid) (st : gf_state) :
  is_exposed obj st = false <-> ~ In obj (exposed_objects st).
Proof.
  rewrite <- is_exposed_In. destruct (is_exposed obj st); split; congruence.
Qed.

(** *** The number of heap objects not visited yet *)







(** *** Termination *)

Section Walk.
Variable h : heap.







(** *** Each object is visited once *)








End Walk.



(** ** The size of the catalog *)

(** *** Dotted names *)

Lemma no_dot_app_dot (b n : string) : no_dot (b +++ String dot n) = false.
Proof.
  induction b as [|c b IH]; simpl; [reflexivity|].
  rewrite IH. apply andb_false_r.
Qed.

Lemma app_dot_cancel (b1 b2 n1 n2 : string) :
  no_dot n1 = true -> no_dot n2 = true ->
  b1 +++ String dot n1 = b2 +++ String dot n2 ->
  b1 = b2 /\ n1 = n2.
Proof.
  intros H1 H2. revert b2.
  induction b1 as [|c b1 IH]; intros [|c2 b2]; simpl; intros E.
  - injection E as ->. auto.
  - injection E as <- ->. now rewrite no_dot_app_dot in H1.
  - injection E as -> <-. now rewrite no_dot_app_dot in H2.
  - injection E as -> E. destruct (IH _ E) as [-> ->]. auto.
Qed.

Lemma full_name_cons (c : ascii) (b n : string) :
  full_name (String c b) n = String c b +++ String dot n.
Proof. reflexivity. Qed.

Lemma plain_name_spec (n : string) :
  plain_name n = true -> n <> "" /\ no_dot n = true.
Proof.
  unfold plain_name. intros H. apply andb_true_iff in H. destruct H as [H1 H2].
  split; [|assumption]. intros ->. discriminate.
Qed.

Lemma full_name_not_empty (b n : string) : n <> "" -> full_name b n <> "".
Proof.
  intros Hn. destruct b as [|c b]; simpl; [assumption|discriminate].
Qed.

Lemma full_name_inj (b1 b2 n1 n2 : string) :
  plain_name n1 = true -> plain_name n2 = true ->
  full_name b1 n1 = full_name b2 n2 ->
  b1 = b2 /\ n1 = n2.
Proof.
  intros H1 H2.
  destruct (plain_name_spec _ H1) as [_ D1].
  destruct (plain_name_spec _ H2) as [_ D2].
  destruct b1 as [|c1 b1], b2 as [|c2 b2]; rewrite ?full_name_cons.
  - simpl. auto.
  - change (full_name "" n1) with n1.
    intros ->. now rewrite no_dot_app_dot in D1.
  - change (full_name "" n2) with n2.
    intros <-. now rewrite no_dot_app_dot in D2.
  - apply app_dot_cancel; assumption.
Qed.

(** *** Dictionaries *)

Lemma dict_set_fresh {V : Type} (k : string) (v : V) (d : list (string * V)) :
  ~ In k (map fst d) -> dict_set k v d = d ++ [(k, v)].
Proof.
  induction d as [|[k' v'] d IH]; simpl; intros H; [reflexivity|].
  destruct (String.eqb_spec k k') as [->|Hne].
  - exfalso. apply H. now left.
  - rewrite IH; [reflexivity|]. intros Hin. apply H. now right.
Qed.

Lemma dict_update_fresh {V : Type} (e d : list (string * V)) :
  NoDup (map fst (d ++ e)) -> dict_update d e = d ++ e.
Proof.
  revert d. induction e as [|[k v] e IH]; intros d H; simpl.
  - now rewrite app_nil_r.
  - unfold dict_update in *. simpl.
    rewrite dict_set_fresh.
    + rewrite IH; rewrite <- app_assoc; [reflexivity|exact H].
    + rewrite map_app in H. simpl in H.
      apply NoDup_remove_2 in H. intros Hin. apply H.
      apply in_or_app. now left.
Qed.




(** *** Well-formed heaps *)

Lemma distinct_NoDup (names : list string) : distinct names = true -> NoDup names.
Proof.
  induction names as [|n rest IH]; simpl; intros H; [constructor|].
  apply andb_true_iff in H. destruct H as [H1 H2].
  constructor; [|now apply IH].
  intros Hin. apply negb_true_iff in H1.
  assert (E : existsb (String.eqb n) rest = true).
  { apply existsb_exists. exists n. split; [assumption|apply String.eqb_refl]. }
  congruence.
Qed.

Lemma wf_deref (h : heap) (o : objid) : wf_heap h = true -> wf_object (deref h o) = true.
Proof.
  intros H. unfold deref.
  destruct (Nat.lt_ge_cases o (List.length h)) as [Hin|Hout].
  - unfold wf_heap in H. rewrite forallb_forall in H. apply H. now apply nth_In.
  - now rewrite nth_overflow.
Qed.

Lemma wf_names_distinct (h : heap) (o : objid) :
  wf_heap h = true -> NoDup (map fst (obj_attrs (deref h o))).
Proof.
  intros H. apply (wf_deref h o) in H. unfold wf_object in H.
  apply andb_true_iff in H. now apply distinct_NoDup.
Qed.

Lemma wf_public_name (h : heap) (o : objid) (n : string) (a : objid) :
  wf_heap h = true ->
  In (n, a) (obj_attrs (deref h o)) ->
  startswith_underscore n = false ->
  plain_name n = true.
Proof.
  intros H Hin Hpub. apply (wf_deref h o) in H. unfold wf_object in H.
  apply andb_true_iff in H. destruct H as [_ H].
  rewrite forallb_forall in H. specialize (H _ Hin). simpl in H.
  now rewrite Hpub in H.
Qed.

Lemma NoDup_fst_functional {A B : Type} (l : list (A * B)) (k : A) (v v' : B) :
  NoDup (map fst l) -> In (k, v) l -> In (k, v') l -> v = v'.
Proof.
  induction l as [|[k0 v0] l IH]; simpl; [contradiction|].
  intros H [E|Hin] [E'|Hin'].
  - congruence.
  - injection E as -> ->. apply NoDup_cons_iff in H. destruct H as [H _].
    exfalso. apply H. now apply (in_map fst) in Hin'.
  - injection E' as -> ->. apply NoDup_cons_iff in H. destruct H as [H _].
    exfalso. apply H. now apply (in_map fst) in Hin.
  - apply NoDup_cons_iff in H. now apply IH.
Qed.

Lemma is_child_public (h : heap) (kv : string * objid) :
  is_child h kv = true -> startswith_underscore (fst kv) = false.
Proof.
  unfold is_child. intros H.
  apply andb_true_iff in H. destruct H as [H _].
  apply andb_true_iff in H. destruct H as [H _].
  now apply negb_true_iff.
Qed.

Lemma is_public_method_public (h : heap) (kv : string * objid) :
  is_public_method h kv = true -> startswith_underscore (fst kv) = false.
Proof.
  unfold is_public_method. intros H.
  apply andb_true_iff in H. destruct H as [H _]. now apply negb_true_iff.
Qed.

(** *** Paths *)

Section Paths.
Variable h : heap.
Variable root : objid.
Hypothesis Hwf : wf_heap h = true.


Lemma has_path_inv (o : objid) (s : string) :
  has_path h root o s ->
  (o = root /\ s = "")
  \/ exists p b n,
       has_path h root p b /\ In (n, o) (obj_attrs (deref h p))
       /\ is_child h (n, o) = true /\ s = full_name b n.
Proof.
  destruct 1 as [|p b n a s Hp Hin Hc Hs]; [now left|].
  right. now exists p, b, n.
Qed.

(** A dotted path leads to one object. *)
Lemma has_path_inj (o1 : objid) (s : string) :
  has_path h root o1 s -> forall o2, has_path h root o2 s -> o1 = o2.
Proof.
  induction 1 as [|p1 b1 n1 a1 s H1 IH Hin1 Hc1 Hs1]; intros o2 H2.
  - destruct (has_path_inv _ _ H2) as [[-> _]|(p2 & b2 & n2 & _ & Hin2 & Hc2 & Hs2)];
      [reflexivity|].
    exfalso. symmetry in Hs2. revert Hs2. apply full_name_not_empty.
    apply (plain_name_spec n2).
    apply (wf_public_name h p2 n2 o2 Hwf Hin2 (is_child_public h _ Hc2)).
  - assert (P1 := wf_public_name h p1 n1 a1 Hwf Hin1 (is_child_public h _ Hc1)).
    destruct (has_path_inv _ _ H2) as [[_ E]|(p2 & b2 & n2 & H2' & Hin2 & Hc2 & Hs2)].
    + exfalso. rewrite E in Hs1. symmetry in Hs1. revert Hs1.
      apply full_name_not_empty. now apply (plain_name_spec n1).
    + assert (P2 := wf_public_name h p2 n2 o2 Hwf Hin2 (is_child_public h _ Hc2)).
      rewrite Hs1 in Hs2.
      destruct (full_name_inj _ _ _ _ P1 P2 Hs2) as [-> ->].
      rewrite <- (IH _ H2') in Hin2.
      apply (NoDup_fst_functional _ _ _ _ (wf_names_distinct h p1 Hwf) Hin1 Hin2).
Qed.

End Paths.

(** *** The walk and its invariant *)

Lemma NoDup_map_on {A B C : Type} (f : A -> B) (g : A -> C) (l : list A) :
  (forall x y, In x l -> In y l -> f x = f y -> g x = g y) ->
  NoDup (map g l) -> NoDup (map f l).
Proof.
  induction l as [|x l IH]; simpl; intros H Hnd; [constructor|].
  apply NoDup_cons_iff in Hnd. destruct Hnd as [Hx Hnd].
  constructor.
  - intros Hin. apply in_map_iff in Hin. destruct Hin as (y & E & Hy).
    apply Hx. apply in_map_iff. exists y. split; [|assumption].
    apply H; auto.
  - apply IH; [|assumption]. intros y z Hy Hz. apply H; auto.
Qed.

Lemma total_app f l l' : total f (l ++ l') = total f l + total f l'.
Proof. unfold total. now rewrite map_app, list_sum_app. Qed.

Lemma dict_update_snoc {V : Type} (d e : list (string * V)) k v :
  dict_update d (e ++ [(k, v)]) = dict_set k v (dict_update d e).
Proof. unfold dict_update. now rewrite fold_left_app. Qed.

Section Catalog.
Variable h : heap.
Variable root : objid.
Hypothesis Hwf : wf_heap h = true.

Local Abbreviation Inv := (walk_invariant h root).
Local Abbreviation pmc := (public_method_count h).

Lemma Inv_exposed st bases log : Inv st bases log -> exposed_objects st = map fst bases.
Proof. intros (H & _). now symmetry. Qed.

Local Abbreviation call_spec := (call_spec h root).

Lemma walk_attrs_spec (rec : objid -> string -> gf_state -> option gf_state) :
  (forall a b st bases log st',
     rec a b st = Some st' -> Inv st bases log -> has_path h root a b ->
     call_spec a st st' bases log) ->
  forall obj base attrs pre st bases log st',
    obj_attrs (deref h obj) = pre ++ attrs ->
    In (obj, base) bases ->
    Inv st bases log ->
    (forall it, In it log -> owner it = obj -> In (oname it) (map fst pre)) ->
    walk_attrs rec h base attrs st = Some st' ->
    exists nb nl,
      Inv st' (bases ++ nb) (log ++ nl)
      /\ (forall it, In it nl -> In (owner it) (map fst nb) \/ owner it = obj)
      /\ List.length nl =
         total pmc (map fst nb) + List.length (filter (is_public_method h) attrs)
      /\ children_in h (map fst nb) (exposed_objects st')
      /\ (forall n a, In (n, a) attrs -> is_child h (n, a) = true ->
                      In a (exposed_objects st')).
Proof.
  intros Hrec obj base attrs.
  induction attrs as [|[n a] rest IH]; intros pre st bases log st' Hattrs Hobj HI Hpre.
  - simpl. intros [= <-]. exists [], []. rewrite !app_nil_r.
    split; [assumption|]. split; [intros it []|]. split; [reflexivity|].
    split; [intros o n a []|intros n a []].
  - assert (Hattrs' : obj_attrs (deref h obj) = (pre ++ [(n, a)]) ++ rest)
      by now rewrite <- app_assoc.
    assert (Hin : In (n, a) (obj_attrs (deref h obj)))
      by (rewrite Hattrs; apply in_or_app; right; now left).
    assert (Hpre' : forall it, In it log -> owner it = obj ->
                               In (oname it) (map fst (pre ++ [(n, a)]))).
    { intros it Hit Ho. rewrite map_app. apply in_or_app. left. now apply Hpre. }
    assert (Hcount : List.length (filter (is_public_method h) ((n, a) :: rest)) =
                     (if is_public_method h (n, a) then 1 else 0)
                     + List.length (filter (is_public_method h) rest)).
    { cbn [filter]. now destruct (is_public_method h (n, a)). }
    rewrite Hcount. clear Hcount.
    cbn [walk_attrs].
    destruct (startswith_underscore n) eqn:Epriv.
    { assert (Epm : is_public_method h (n, a) = false)
        by (unfold is_public_method; simpl; now rewrite Epriv).
      assert (Ech : is_child h (n, a) = false)
        by (unfold is_child; simpl; now rewrite Epriv).
      rewrite Epm.
      intros H. destruct (IH _ _ _ _ _ Hattrs' Hobj HI Hpre' H)
        as (nb & nl & H1 & H2 & H3 & H4 & H5).
      exists nb, nl.
      split; [exact H1|]. split; [exact H2|]. split; [exact H3|]. split; [exact H4|].
      intros n' a' [E|Hin'] Hc; [|now apply (H5 n' a')].
      injection E as <- <-. congruence. }
    destruct (obj_ismethod (deref h a)) eqn:Emeth.
    { (* a bound method: one write into the dictionary *)
      assert (Epm : is_public_method h (n, a) = true)
        by (unfold is_public_method; simpl; now rewrite Epriv, Emeth).
      assert (Ech : is_child h (n, a) = false)
        by (unfold is_child; simpl; now rewrite Epriv, Emeth).
      rewrite Epm.
      set (it := mkItem obj base n a).
      set (st1 := mkGf (exposed_objects st)
                    (dict_set (full_name base n) (method_params (deref h a))
                       (functions st))).
      intros H.
      destruct HI as (I1 & I2 & I3 & I4 & I5 & I6).
      assert (HI1 : Inv st1 bases (log ++ [it])).
      { split; [exact I1|]. split; [|split; [|split; [exact I4|split; [exact I5|]]]].
        - unfold st1. cbn [functions]. rewrite map_app. cbn [map].
          change (entry_of h it) with (full_name base n, method_params (deref h a)).
          rewrite dict_update_snoc. now rewrite <- I2.
        - intros it' Hit'. apply in_app_or in Hit'. destruct Hit' as [Hit'|[<-|[]]].
          + now apply I3.
          + simpl. split; [assumption|]. split; assumption.
        - rewrite map_app. simpl. apply NoDup_app; [assumption|repeat constructor; easy|].
          intros k Hk [<-|[]].
          apply in_map_iff in Hk. destruct Hk as (it' & E & Hit').
          unfold key_of in E. simpl in E. injection E as Eo En.
          assert (Hn := Hpre it' Hit' Eo). rewrite En in Hn.
          assert (Hnd := wf_names_distinct h obj Hwf).
          rewrite Hattrs, map_app in Hnd. simpl in Hnd.
          apply NoDup_remove_2 in Hnd. apply Hnd. apply in_or_app. now left. }
      assert (Hpre1 : forall it', In it' (log ++ [it]) -> owner it' = obj ->
                                  In (oname it') (map fst (pre ++ [(n, a)]))).
      { intros it' Hit' Ho. apply in_app_or in Hit'. destruct Hit' as [Hit'|[<-|[]]].
        - now apply Hpre'.
        - rewrite map_app. apply in_or_app. right. now left. }
      destruct (IH _ _ _ _ _ Hattrs' Hobj HI1 Hpre1 H)
        as (nb & nl & H1 & H2 & H3 & H4 & H5).
      exists nb, (it :: nl). rewrite <- app_assoc in H1. simpl in H1.
      split; [exact H1|]. split; [|split; [|split; [exact H4|]]].
      - intros it' [<-|Hit']; [now right|now apply H2].
      - simpl. rewrite H3. lia.
      - intros n' a' [E|Hin'] Hc; [|now apply (H5 n' a')].
        injection E as <- <-. congruence. }
    assert (Epm : is_public_method h (n, a) = false)
      by (unfold is_public_method; simpl; now rewrite Epriv, Emeth).
    rewrite Epm.
    destruct (recurses (deref h a)) eqn:Erec.
    { (* a class or a plain object: the recursive call *)
      destruct (rec a (full_name base n) st) as [st1|] eqn:E; [|discriminate].
      intros H.
      assert (Hc : is_child h (n, a) = true).
      { unfold is_child. simpl. now rewrite Epriv, Emeth, Erec. }
      assert (Hpath : has_path h root a (full_name base n)).
      { destruct HI as (_ & _ & _ & I4 & _).
        apply path_attr with (o := obj) (b := base) (n := n); auto. }
      destruct (Hrec _ _ _ _ _ _ E HI Hpath) as (nb1 & nl1 & J & Ja & Jo & Jc & Jch).
      assert (Hobj1 : In (obj, base) (bases ++ nb1)) by (apply in_or_app; now left).
      assert (Hnotin : ~ In obj (map fst nb1)).
      { destruct J as (J1 & _ & _ & _ & J5 & _).
        rewrite <- J1, map_app in J5. intros Hin1.
        apply NoDup_app_remove_l in J5 as J5'.
        assert (Hb : In obj (map fst bases)) by now apply (in_map fst) in Hobj.
        clear - J5 Hin1 Hb.
        induction (map fst bases) as [|x l IHl]; [contradiction|].
        simpl in J5. apply NoDup_cons_iff in J5. destruct J5 as [Hx J5].
        destruct Hb as [->|Hb]; [|now apply IHl].
        apply Hx. apply in_or_app. now right. }
      assert (Hpre1 : forall it', In it' (log ++ nl1) -> owner it' = obj ->
                                  In (oname it') (map fst (pre ++ [(n, a)]))).
      { intros it' Hit' Ho. apply in_app_or in Hit'. destruct Hit' as [Hit'|Hit'].
        - now apply Hpre'.
        - exfalso. apply Hnotin. rewrite <- Ho. now apply Jo. }
      destruct (IH _ _ _ _ _ Hattrs' Hobj1 J Hpre1 H)
        as (nb & nl & H1 & H2 & H3 & H4 & H5).
      assert (Hmono : incl (exposed_objects st1) (exposed_objects st')).
      { rewrite (Inv_exposed _ _ _ J), (Inv_exposed _ _ _ H1).
        rewrite (map_app fst (bases ++ nb1)). now apply incl_appl, incl_refl. }
      exists (nb1 ++ nb), (nl1 ++ nl). rewrite !app_assoc.
      split; [exact H1|]. split; [|split; [|split]].
      - intros it' Hit'. apply in_app_or in Hit'. destruct Hit' as [Hit'|Hit'].
        + left. rewrite map_app. apply in_or_app. left. now apply Jo.
        + destruct (H2 _ Hit') as [Hl|Hr]; [|now right].
          left. rewrite map_app. apply in_or_app. now right.
      - rewrite length_app, map_app, total_app, Jc, H3. lia.
      - intros o n' a' Ho Hin' Hc'. rewrite map_app in Ho.
        apply in_app_or in Ho. destruct Ho as [Ho|Ho].
        + apply Hmono. now apply (Jch o n' a').
        + now apply (H4 o n' a').
      - intros n' a' [E'|Hin'] Hc'; [|now apply (H5 n' a')].
        injection E' as <- <-. now apply Hmono. }
    { assert (Ech : is_child h (n, a) = false)
        by (unfold is_child; simpl; rewrite Erec; apply andb_false_r).
      intros H. destruct (IH _ _ _ _ _ Hattrs' Hobj HI Hpre' H)
        as (nb & nl & H1 & H2 & H3 & H4 & H5).
      exists nb, nl.
      split; [exact H1|]. split; [exact H2|]. split; [exact H3|]. split; [exact H4|].
      intros n' a' [E|Hin'] Hc; [|now apply (H5 n' a')].
      injection E as <- <-. congruence. }
Qed.

Lemma get_functions_spec (fuel : nat) :
  forall obj base st bases log st',
    get_functions fuel h obj base st = Some st' ->
    Inv st bases log -> has_path h root obj base ->
    call_spec obj st st' bases log.
Proof.
  induction fuel as [|fuel IH]; intros obj base st bases log st'; [discriminate|].
  cbn [get_functions]. destruct (is_exposed obj st) eqn:E.
  - intros [= <-] HI _. exists [], []. rewrite !app_nil_r.
    split; [assumption|]. split; [now apply is_exposed_In|].
    split; [intros it []|]. split; [reflexivity|]. intros o n a [].
  - intros H HI Hpath. apply is_exposed_not_In in E.
    destruct HI as (I1 & I2 & I3 & I4 & I5 & I6).
    set (st1 := mkGf (exposed_objects st ++ [obj]) (functions st)) in *.
    assert (HI1 : Inv st1 (bases ++ [(obj, base)]) log).
    { split; [|split; [exact I2|split; [|split; [|split; [|exact I6]]]]].
      - rewrite map_app. simpl. now rewrite I1.
      - intros it Hit. destruct (I3 it Hit) as (A & B & C).
        split; [apply in_or_app; now left|]. now split.
      - intros o b Hin. apply in_app_or in Hin. destruct Hin as [Hin|[[= <- <-]|[]]].
        + now apply I4.
        + exact Hpath.
      - simpl. apply NoDup_app; [assumption|repeat constructor; easy|].
        intros x Hx [<-|[]]. contradiction. }
    assert (Hpre : forall it, In it log -> owner it = obj -> In (oname it) (map fst (@nil (string * objid)))).
    { intros it Hit Ho. exfalso. apply E. rewrite <- I1, <- Ho.
      destruct (I3 it Hit) as (A & _). now apply (in_map fst) in A. }
    assert (Hobj : In (obj, base) (bases ++ [(obj, base)]))
      by (apply in_or_app; right; now left).
    destruct (walk_attrs_spec (get_functions fuel h) IH obj base
                (obj_attrs (deref h obj)) [] st1 (bases ++ [(obj, base)]) log st'
                eq_refl Hobj HI1 Hpre H)
      as (nb & nl & H1 & H2 & H3 & H4 & H5).
    exists ((obj, base) :: nb), nl.
    rewrite <- app_assoc in H1. simpl in H1.
    split; [exact H1|]. split; [|split; [|split]].
    + rewrite (Inv_exposed _ _ _ H1), map_app. apply in_or_app. right. now left.
    + intros it Hit. destruct (H2 it Hit) as [Hl|Hr]; simpl; auto.
    + rewrite H3. unfold total. simpl. unfold public_method_count. lia.
    + intros o n a [<-|Ho] Hin Hc.
      * now apply (H5 n a).
      * now apply (H4 o n a).
Qed.

(** Two writes into [functions] never use the same key. *)
Lemma log_keys_distinct st bases log :
  Inv st bases log -> NoDup (map fst (map (entry_of h) log)).
Proof.
  intros (I1 & I2 & I3 & I4 & I5 & I6).
  rewrite map_map. apply NoDup_map_on with (g := key_of); [|assumption].
  intros x y Hx Hy Exy. unfold entry_of in Exy. simpl in Exy.
  destruct (I3 x Hx) as (Bx & Ax & Px). destruct (I3 y Hy) as (By & Ay & Py).
  assert (Nx := wf_public_name h _ _ _ Hwf Ax (is_public_method_public h _ Px)).
  assert (Ny := wf_public_name h _ _ _ Hwf Ay (is_public_method_public h _ Py)).
  destruct (full_name_inj _ _ _ _ Nx Ny Exy) as [Eb En].
  unfold key_of. f_equal; [|assumption].
  apply (has_path_inj h root Hwf _ _ (I4 _ _ Bx)).
  rewrite Eb. now apply I4.
Qed.

Lemma functions_are_log st bases log :
  Inv st bases log -> functions st = map (entry_of h) log.
Proof.
  intros HI. assert (Hk := log_keys_distinct _ _ _ HI).
  destruct HI as (_ & I2 & _). rewrite I2.
  now apply (dict_update_fresh (map (entry_of h) log) []).
Qed.

End Catalog.

(** *** The merge of the registered functions *)









End StubFacts.
(** ** [js_bridge_call] *)

Module BridgeFacts.
Import Py Bridge.

Section Dispatch.
Variable json_dumps : pyvalue -> string + exn.
Variable json_loads : pyvalue -> pyvalue + exn.
Variable unquote : string -> string.
Variable py_str : pyvalue -> string.
Variable format_exc : exn -> string.

Local Abbreviation js_bridge_call :=
  (js_bridge_call json_loads unquote py_str).
Local Abbreviation run_thread := (run_thread json_dumps format_exc).
Local Abbreviation deliveries := (deliveries json_dumps format_exc).
Local Abbreviation _call := (_call json_dumps format_exc).
Local Abbreviation pending := (pending unquote).









(** *** The asynchronous result *)




(** *** The drop event *)

Lemma pair_eqb_eq (x y : string * string) : pair_eqb x y = true <-> x = y.
Proof.
  unfold pair_eqb. destruct x as [a b], y as [c d]. simpl.
  rewrite andb_true_iff, !String.eqb_eq. split.
  - intros [-> ->]. reflexivity.
  - intros [= -> ->]. auto.
Qed.

Lemma filter_first {A : Type} (f : A -> bool) (l : list A) (x : A) (rest : list A) :
  filter f l = x :: rest ->
  exists l1 l2, l = l1 ++ x :: l2 /\ filter f l1 = [] /\ filter f l2 = rest
                /\ f x = true.
Proof.
  induction l as [|y l IH]; simpl; [discriminate|].
  destruct (f y) eqn:E.
  - intros [= -> <-]. exists [], l. auto.
  - intros H. destruct (IH H) as (l1 & l2 & -> & H1 & H2 & H3).
    exists (y :: l1), l2. simpl. rewrite E. auto.
Qed.

Lemma filter_nil_forall {A : Type} (f : A -> bool) (l : list A) :
  filter f l = [] -> forall y, In y l -> f y = false.
Proof.
  induction l as [|x l IH]; simpl; [contradiction|].
  destruct (f x) eqn:E; [discriminate|].
  intros H y [<-|Hy]; auto.
Qed.

Lemma list_remove_first (f : string * string -> bool) l1 x l2 :
  filter f l1 = [] -> f x = true ->
  list_remove x (l1 ++ x :: l2) = l1 ++ l2.
Proof.
  intros H1 Hx. induction l1 as [|y l1 IH]; simpl.
  - assert (E : pair_eqb x x = true) by now apply pair_eqb_eq.
    now rewrite E.
  - simpl in H1. destruct (f y) eqn:Ey; [discriminate|].
    destruct (pair_eqb y x) eqn:E.
    + apply pair_eqb_eq in E. congruence.
    + now rewrite IH.
Qed.

Lemma matching_paths_named name paths file :
  named name file ->
  matching_paths unquote paths file = inl (pending name paths).
Proof.
  unfold named, matching_paths. intros ->.
  destruct paths as [|p paths]; [reflexivity|].
  f_equal.
Qed.

Lemma named_dict name file :
  named name file -> exists d, file = VDict d /\ dict_get "name" d = Some (VStr name).
Proof.
  unfold named, subscript. destruct file; try discriminate.
  destruct (dict_get "name" entries) eqn:E; [|discriminate].
  intros [= ->]. now exists entries.
Qed.

(** The loop body on a file whose name has a pending entry. *)
Lemma drop_file_match name paths d first rest :
  dict_get "name" d = Some (VStr name) ->
  pending name paths = first :: rest ->
  exists l1 l2,
    paths = l1 ++ first :: l2
    /\ pending name l1 = []
    /\ pending name l2 = rest
    /\ drop_file unquote paths (VDict d) =
       inl (VDict (dict_set "pywebviewFullPath" (VStr (unquote (snd first))) d),
            l1 ++ l2).
Proof.
  intros Hd Hp.
  destruct (filter_first _ _ _ _ Hp) as (l1 & l2 & -> & H1 & H2 & H3).
  exists l1, l2. repeat split; try assumption.
  unfold drop_file.
  rewrite (matching_paths_named name) by (unfold named; simpl; now rewrite Hd).
  rewrite Hp. simpl.
  now rewrite (list_remove_first _ l1 first l2 H1 H3).
Qed.

Lemma drop_file_no_match name paths file :
  named name file ->
  pending name paths = [] ->
  drop_file unquote paths file = inl (file, paths).
Proof.
  intros Hn Hp. unfold drop_file.
  now rewrite (matching_paths_named name _ _ Hn), Hp.
Qed.

Lemma pending_app name l1 l2 :
  pending name (l1 ++ l2) = pending name l1 ++ pending name l2.
Proof. apply filter_app. Qed.

Lemma list_remove_pending_le name x paths :
  List.length (pending name (list_remove x paths)) <= List.length (pending name paths).
Proof.
  induction paths as [|y paths IH]; simpl; [lia|].
  destruct (pair_eqb y x); simpl.
  - destruct (String.eqb (unquote (fst y)) name); simpl; lia.
  - destruct (String.eqb (unquote (fst y)) name); simpl; lia.
Qed.

(** The loop body never adds an entry. *)
Lemma drop_file_pending_le name paths file file' paths' :
  drop_file unquote paths file = inl (file', paths') ->
  List.length (pending name paths') <= List.length (pending name paths).
Proof.
  unfold drop_file.
  destruct (matching_paths unquote paths file) as [[|first l]|e]; try discriminate.
  - intros [= _ <-]. lia.
  - destruct (set_full_path file (unquote (snd first))); [|discriminate].
    intros [= _ <-]. apply list_remove_pending_le.
Qed.

(** On a file named [name] it consumes one entry of that name, if any. *)
Lemma drop_file_consumes name paths file file' paths' :
  named name file ->
  drop_file unquote paths file = inl (file', paths') ->
  pending name paths' = tl (pending name paths).
Proof.
  intros Hn H.
  destruct (pending name paths) as [|first rest] eqn:Hp.
  - rewrite (drop_file_no_match name paths file Hn Hp) in H.
    injection H as _ <-. now rewrite Hp.
  - destruct (named_dict _ _ Hn) as (d & -> & Hd).
    destruct (drop_file_match name paths d first rest Hd Hp)
      as (l1 & l2 & -> & H1 & H2 & E).
    rewrite E in H. injection H as _ <-.
    rewrite pending_app, H1, H2. reflexivity.
Qed.

Lemma drop_files_step file rest w :
  drop_files unquote (file :: rest) w =
  match drop_file unquote (dnd_paths w) file with
  | inl r =>
      match drop_files unquote rest
              (mkWorld (window w) (snd r) (trace w) (threads w)) with
      | (inl rest', w') => (inl (fst r :: rest'), w')
      | (inr e, w') => (inr e, w')
      end
  | inr e => (inr e, w)
  end.
Proof.
  simpl. unfold bind, get_paths, lift, set_paths, ret, raise.
  destruct (drop_file unquote (dnd_paths w) file) as [r|e]; [|reflexivity].
  now destruct (drop_files unquote rest _) as [[rest'|e] w'].
Qed.

Lemma drop_files_pending_le name files :
  forall w files' w',
    drop_files unquote files w = (inl files', w') ->
    List.length (pending name (dnd_paths w')) <= List.length (pending name (dnd_paths w)).
Proof.
  induction files as [|file rest IH]; intros w files' w'.
  - simpl. unfold ret. intros [= _ <-]. lia.
  - rewrite drop_files_step.
    destruct (drop_file unquote (dnd_paths w) file) as [[file1 paths1]|e] eqn:E;
      [|discriminate].
    destruct (drop_files unquote rest _) as [[rest'|e] w1] eqn:E1; [|discriminate].
    intros [= _ <-].
    apply IH in E1. simpl in E1.
    apply (drop_file_pending_le name) in E. simpl in *. lia.
Qed.

(** A drop event that names a file consumes the only entry of that name. *)
Lemma drop_files_consume_once name files :
  forall w files' w',
    drop_files unquote files w = (inl files', w') ->
    List.length (pending name (dnd_paths w)) <= 1 ->
    (exists file, In file files /\ named name file) ->
    pending name (dnd_paths w') = [].
Proof.
  induction files as [|file rest IH]; intros w files' w' H Hone (f & Hin & Hn).
  - contradiction.
  - rewrite drop_files_step in H.
    destruct (drop_file unquote (dnd_paths w) file) as [[file1 paths1]|e] eqn:E;
      [|discriminate].
    destruct (drop_files unquote rest _) as [[rest'|e] w1] eqn:E1; [|discriminate].
    injection H as _ <-.
    destruct Hin as [<-|Hin].
    + apply (drop_file_consumes name _ _ _ _ Hn) in E.
      apply (drop_files_pending_le name) in E1. simpl in E1.
      rewrite E in E1.
      destruct (pending name (dnd_paths w)) as [|p [|q l]]; simpl in *;
        try lia; now apply length_zero_iff_nil; lia.
    + apply (IH _ _ _ E1).
      * simpl. apply (drop_file_pending_le name) in E. simpl in *. lia.
      * now exists f.
Qed.

(** With no entry of a name, files of that name come out as they went in. *)
Lemma drop_files_unresolved name files :
  forall w files' w',
    drop_files unquote files w = (inl files', w') ->
    pending name (dnd_paths w) = [] ->
    forall i file, nth_error files i = Some file -> named name file ->
                   nth_error files' i = Some file.
Proof.
  induction files as [|file rest IH]; intros w files' w' H Hp i f Hi Hn.
  - destruct i; discriminate.
  - rewrite drop_files_step in H.
    destruct (drop_file unquote (dnd_paths w) file) as [[file1 paths1]|e] eqn:E;
      [|discriminate].
    destruct (drop_files unquote rest _) as [[rest'|e] w1] eqn:E1; [|discriminate].
    injection H as <- <-.
    destruct i as [|i]; simpl in *.
    + injection Hi as ->.
      rewrite (drop_file_no_match name _ _ Hn Hp) in E. now injection E as <- _.
    + apply (IH _ _ _ E1); try assumption. simpl.
      assert (Hle := drop_file_pending_le name _ _ _ _ E). rewrite Hp in Hle.
      simpl in *. now apply length_zero_iff_nil; lia.
Qed.


(** The relay on a drop event for a known element: the loop over the files
    runs on the registry, then every handler of the element for [drop] is
    started with the event that holds the files as the loop left them. *)
Lemma event_handler_drop h value_id w param event ev dt files node element :
  param = VDict [("event", event); ("nodeId", VStr node)] ->
  event = VDict ev ->
  dict_get "type" ev = Some (VStr "drop") ->
  dict_get "dataTransfer" ev = Some (VDict dt) ->
  dict_get "files" dt = Some (VList files) ->
  dict_get node (_elements (window w)) = Some element ->
  js_bridge_call h "pywebviewEventHandler" param value_id w =
  match drop_files unquote files w with
  | (inl files', w1) =>
      start_handlers
        (match dict_get "drop" (_event_handlers element) with
         | Some l => l
         | None => []
         end)
        (VDict (dict_set "dataTransfer" (VDict (dict_set "files" (VList files') dt)) ev))
        w1
  | (inr e, w1) => (inr e, w1)
  end.
Proof.
  intros -> -> Ht Hdt Hf He.
  unfold Bridge.js_bridge_call. cbn [String.eqb Ascii.eqb Bool.eqb].
  unfold event_handler, bind, lift, get_window. simpl.
  unfold ret. rewrite He, Ht. simpl.
  unfold process_drop, bind, lift. simpl. rewrite Hdt. unfold ret. simpl.
  rewrite Hf. simpl.
  destruct (drop_files unquote files w) as [[files'|e] w1]; [|reflexivity].
  reflexivity.
Qed.

(** C6 (amended). For a dropped file with a name: when entries of the
    registry decode to that name, the loop body attaches the decoded path of
    the first of them, in the order of the registry, and removes that one
    entry, the others stay; when none does, the file and the registry are
    left as they are and nothing is raised. When at most one entry decodes
    to the name, a drop event that names the file leaves no such entry, and
    in every later drop event on that registry the files of that name come
    out without a path attached. *)
Theorem drop_resolution name file :
  named name file ->
  (forall paths,
     match pending name paths with
     | first :: rest =>
         exists d l1 l2,
           file = VDict d
           /\ paths = l1 ++ first :: l2
           /\ pending name l1 = []
           /\ drop_file unquote paths file =
              inl (VDict (dict_set "pywebviewFullPath" (VStr (unquote (snd first))) d),
                   l1 ++ l2)
     | [] => drop_file unquote paths file = inl (file, paths)
     end)
  /\ (forall files w files' w',
        In file files ->
        List.length (pending name (dnd_paths w)) <= 1 ->
        drop_files unquote files w = (inl files', w') ->
        pending name (dnd_paths w') = []
        /\ forall files2 w2 files2' w2',
             dnd_paths w2 = dnd_paths w' ->
             drop_files unquote files2 w2 = (inl files2', w2') ->
             forall i file2,
               nth_error files2 i = Some file2 -> named name file2 ->
               nth_error files2' i = Some file2).
Proof.
  intros Hn. split.
  - intros paths. destruct (pending name paths) as [|first rest] eqn:Hp.
    + now apply (drop_file_no_match name).
    + destruct (named_dict _ _ Hn) as (d & -> & Hd).
      destruct (drop_file_match name paths d first rest Hd Hp)
        as (l1 & l2 & E1 & E2 & _ & E3).
      exists d, l1, l2. auto.
  - intros files w files' w' Hin Hone H.
    assert (Hnone : pending name (dnd_paths w') = []).
    { apply (drop_files_consume_once name files w files' w' H Hone).
      now exists file. }
    split; [exact Hnone|].
    intros files2 w2 files2' w2' Hw H2 i file2 Hi Hn2.
    apply (drop_files_unresolved name files2 w2 files2' w2' H2); try assumption.
    now rewrite Hw.
Qed.

End Dispatch.

(** *** Closed examples *)


(** The call of a registered [greet] that returns [hello world], with
    correlation id [abc]. *)
Example greet_scenario :
  let w :=
    snd (Bridge.js_bridge_call toy_loads (fun s => s) toy_str
           [] "greet" (VList [VStr "world"]) "abc" example_world) in
  Bridge.deliveries toy_dumps toy_format_exc w =
  [result_slot "greet" "abc" +++ " = {value: "
     +++ single_quoted (quoted "hello world") +++ "}"].
Proof. reflexivity. Qed.






(** C6, as stated, fails: with two entries of the same decoded name in the
    registry, the second of two identical drop events, with no write to the
    registry in between, still gets a path attached. *)
Lemma second_drop_resolves :
  let relay := Bridge.js_bridge_call toy_loads (fun s => s) toy_str
                 [] "pywebviewEventHandler" drop_param "" in
  let w1 := snd (relay drop_world) in
  let w2 := snd (relay w1) in
  dnd_paths w1 = [("a.txt", "/y/a.txt")]
  /\ map thread_event (threads w1) =
     [Some (drop_event
              [VDict [("name", VStr "a.txt"); ("pywebviewFullPath", VStr "/x/a.txt")]])]
  /\ fst (relay w1) = inl tt
  /\ dnd_paths w2 = []
  /\ map thread_event (threads w2) =
     [Some (drop_event
              [VDict [("name", VStr "a.txt"); ("pywebviewFullPath", VStr "/x/a.txt")]]);
      Some (drop_event
              [VDict [("name", VStr "a.txt"); ("pywebviewFullPath", VStr "/y/a.txt")]])].
Proof. repeat split. Qed.

Lemma drop_resolution_witness :
  named "a.txt" a_txt
  /\ Bridge.drop_file (fun s => s) [("b.txt", "/x/b.txt"); ("a.txt", "/x/a.txt")] a_txt =
     inl (VDict [("name", VStr "a.txt"); ("pywebviewFullPath", VStr "/x/a.txt")],
          [("b.txt", "/x/b.txt")])
  /\ Bridge.drop_file (fun s => s) [("b.txt", "/x/b.txt")] a_txt =
     inl (a_txt, [("b.txt", "/x/b.txt")]).
Proof.
  assert (Hn : named "a.txt" a_txt) by reflexivity.
  split; [exact Hn|].
  destruct (drop_resolution (fun s => s) "a.txt" a_txt Hn) as [H _].
  split.
  - assert (H1 := H [("b.txt", "/x/b.txt"); ("a.txt", "/x/a.txt")]).
    change (Bridge.pending (fun s => s) "a.txt" [("b.txt", "/x/b.txt"); ("a.txt", "/x/a.txt")])
      with [("a.txt", "/x/a.txt")] in H1.
    destruct H1 as (d & l1 & l2 & _ & _ & _ & _).
    reflexivity.
  - exact (H [("b.txt", "/x/b.txt")]).
Defined.

End BridgeFacts.
(** * Further properties of the code *)

(** ** [sort_js_files] and [load_js_files] on arbitrary input *)

Module SortJsMore.
Import SortJs SortJsFacts.

Section Sort.
Variable stem : string -> string.

Lemma unordered_list_insert (i : nat) (x : string) (l : list string) :
  LOAD_ORDER (stem x) <> None ->
  unordered stem (list_insert i x l) = unordered stem l.
Proof.
  intros Hx. unfold list_insert, unordered.
  rewrite filter_app. cbn [filter].
  destruct (LOAD_ORDER (stem x)); [|contradiction].
  rewrite <- filter_app. now rewrite firstn_skipn.
Qed.

Lemma unordered_insert_steps (rem : list (string * string)) :
  (forall x, In x rem -> LOAD_ORDER (stem (snd x)) <> None) ->
  forall acc, unordered stem (fold_left insert_step rem acc) = unordered stem acc.
Proof.
  induction rem as [|x rem IH]; intros H acc; simpl; [reflexivity|].
  rewrite IH by (intros y Hy; apply H; now right).
  unfold insert_step. apply unordered_list_insert. apply H. now left.
Qed.

Lemma unordered_idempotent (l : list string) :
  unordered stem (unordered stem l) = unordered stem l.
Proof.
  unfold unordered. induction l as [|x l IH]; simpl; [reflexivity|].
  destruct (LOAD_ORDER (stem x)) eqn:E; simpl; [assumption|].
  rewrite E. now f_equal.
Qed.

Lemma named_is_named (l : list string) (x : string) :
  In x (named stem l) -> LOAD_ORDER (stem x) <> None.
Proof.
  unfold named. rewrite filter_In. intros [_ H] E. now rewrite E in H.
Qed.

(** X1. Whatever the input, the fragments outside [LOAD_ORDER] come out in the
    order they went in. *)
Theorem sort_js_files_keeps_discovery_order (js_files : list string) :
  unordered stem (sort_js_files stem js_files) = unordered stem js_files.
Proof.
  rewrite sort_js_files_unfold, unordered_insert_steps.
  - apply unordered_idempotent.
  - intros x Hx.
    apply (Permutation_in _ (Permutation_sym (sorted_perm load_key _))) in Hx.
    apply in_map_iff in Hx. destruct Hx as (f & <- & Hf). simpl.
    now apply (named_is_named js_files).
Qed.

(** X2. With one fragment of each of the three names and any number of others,
    [finish] goes to index 99 of the list, or to its end when the list is
    shorter. *)
Theorem sort_js_files_order_general (js_files : list string) (p a f : string) :
  stem p = "polyfill" -> stem a = "api" -> stem f = "finish" ->
  Permutation [p; a; f] (named stem js_files) ->
  sort_js_files stem js_files =
  p :: a :: firstn 97 (unordered stem js_files)
    ++ f :: skipn 97 (unordered stem js_files).
Proof.
  intros Hp Ha Hf H.
  rewrite sort_js_files_unfold, (sorted_three stem p a f _ Hp Ha Hf H).
  unfold fold_left, insert_step, load_key, snd, fst.
  change (LOAD_ORDER "polyfill") with (Some 0).
  change (LOAD_ORDER "api") with (Some 1).
  change (LOAD_ORDER "finish") with (Some 99).
  cbv iota beta.
  change (list_insert 0 p (unordered stem js_files)) with (p :: unordered stem js_files).
  change (list_insert 1 a (p :: unordered stem js_files))
    with (p :: a :: unordered stem js_files).
  now rewrite (list_insert_SS 97).
Qed.

(** *** The polyfill comes first *)

Lemma sorted_head_zero {A : Type} (key : A -> nat) (l : list A) :
  (exists y, In y l /\ key y = 0) ->
  exists z rest, sorted key l = z :: rest /\ key z = 0.
Proof.
  induction l as [|x l IH]; intros (y & Hy & Ky); [contradiction|].
  cbn [sorted fold_right]. fold (sorted key l).
  destruct (sorted key l) as [|z rest] eqn:E.
  - simpl. exists x, []. split; [reflexivity|].
    destruct Hy as [->|Hy]; [assumption|].
    apply (Permutation_in _ (sorted_perm key l)) in Hy. rewrite E in Hy. contradiction.
  - simpl. destruct (Nat.leb (key x) (key z)) eqn:L.
    + exists x, (z :: rest). split; [reflexivity|].
      destruct Hy as [->|Hy]; [assumption|].
      destruct IH as (z' & rest' & [= <- <-] & Kz); [now exists y|].
      apply Nat.leb_le in L. lia.
    + exists z, (insert_by key x rest). split; [reflexivity|].
      destruct Hy as [->|Hy].
      * apply Nat.leb_gt in L. lia.
      * destruct IH as (z' & rest' & [= <- <-] & Kz); [now exists y|]. assumption.
Qed.

Lemma load_key_zero (x : string * string) :
  LOAD_ORDER (fst x) <> None -> load_key x = 0 -> fst x = "polyfill".
Proof.
  unfold load_key, LOAD_ORDER.
  destruct (String.eqb_spec (fst x) "polyfill") as [E|_]; [auto|].
  destruct (String.eqb (fst x) "api"); [discriminate|].
  destruct (String.eqb (fst x) "finish"); [discriminate|].
  intros H. now contradiction H.
Qed.

Lemma insert_steps_keep_head (rem : list (string * string)) :
  (forall x, In x rem -> fst x = stem (snd x) /\ LOAD_ORDER (fst x) <> None) ->
  forall q acc,
    stem q = "polyfill" ->
    exists q' rest,
      fold_left insert_step rem (q :: acc) = q' :: rest /\ stem q' = "polyfill".
Proof.
  induction rem as [|x rem IH]; intros H q acc Hq; simpl.
  - now exists q, acc.
  - destruct (H x (or_introl eq_refl)) as [Hfst Hnamed].
    unfold insert_step at 2, list_insert.
    destruct (load_key x) as [|k] eqn:K.
    + simpl. apply IH; [intros y Hy; apply H; now right|].
      rewrite <- Hfst. now apply load_key_zero.
    + simpl. apply IH; [intros y Hy; apply H; now right|assumption].
Qed.

(** X3. Whenever the input holds a polyfill fragment, a polyfill fragment is the
    first element of the result. *)
Theorem sort_js_files_polyfill_first (js_files : list string) (p : string) :
  In p js_files -> stem p = "polyfill" ->
  exists q rest,
    sort_js_files stem js_files = q :: rest /\ stem q = "polyfill".
Proof.
  intros Hin Hp. rewrite sort_js_files_unfold.
  set (R := map (fun f => (stem f, f)) (named stem js_files)).
  assert (HR : forall x, In x R -> fst x = stem (snd x) /\ LOAD_ORDER (fst x) <> None).
  { intros x Hx. apply in_map_iff in Hx. destruct Hx as (f & <- & Hf). simpl.
    split; [reflexivity|]. now apply (named_is_named js_files). }
  assert (Hp0 : exists y, In y R /\ load_key y = 0).
  { exists (stem p, p). split.
    - apply in_map_iff. exists p. split; [reflexivity|].
      unfold named. apply filter_In. split; [assumption|]. now rewrite Hp.
    - unfold load_key. simpl. now rewrite Hp. }
  destruct (sorted_head_zero load_key R Hp0) as (z & rest & E & Kz).
  assert (HS : forall x, In x (sorted load_key R) ->
                         fst x = stem (snd x) /\ LOAD_ORDER (fst x) <> None).
  { intros x Hx. apply HR.
    now apply (Permutation_in _ (Permutation_sym (sorted_perm load_key R))). }
  rewrite E in *. cbn [fold_left].
  unfold insert_step at 2, list_insert. rewrite Kz. cbn [firstn skipn app].
  apply insert_steps_keep_head.
  - intros x Hx. apply HS. now right.
  - destruct (HS z (or_introl eq_refl)) as [Hfst Hnamed].
    rewrite <- Hfst. now apply load_key_zero.
Qed.

End Sort.

(** *** The assembled text *)

Section Load.
Variable stem : string -> string.
Variable read : string -> string.
Variable format : string -> list (string * string) -> string.
Variable api_params customize_params : list (string * string).

Local Abbreviation load_step := (load_step stem read format api_params customize_params).
Local Abbreviation text_of := (LoadJs.text_of stem read format api_params customize_params).

Lemma load_steps_text (platform : string) (files : list string) :
  forall js_code,
    fold_left (load_step platform) files js_code =
    js_code +++ text_of (filter (fun file => negb (skipped stem platform file)) files).
Proof.
  induction files as [|file files IH]; intros js_code; cbn [fold_left filter].
  - simpl. now rewrite string_app_nil_r.
  - rewrite IH.
    destruct (String.eqb (stem file) "api") eqn:Ea.
    { assert (S : skipped stem platform file = false)
        by (unfold skipped; now rewrite Ea).
      assert (L : load_step platform js_code file =
                  js_code +++ LoadJs.render stem read format api_params customize_params file)
        by (unfold SortJs.load_step, LoadJs.render, LoadJs.fragment_params; now rewrite Ea).
      rewrite S, L. cbn [negb LoadJs.text_of fold_right]. now rewrite string_app_assoc. }
    destruct (String.eqb (stem file) "customize") eqn:Ec.
    { assert (S : skipped stem platform file = false)
        by (unfold skipped; rewrite Ea, Ec; reflexivity).
      assert (L : load_step platform js_code file =
                  js_code +++ LoadJs.render stem read format api_params customize_params file)
        by (unfold SortJs.load_step, LoadJs.render, LoadJs.fragment_params;
            now rewrite Ea, Ec).
      rewrite S, L. cbn [negb LoadJs.text_of fold_right]. now rewrite string_app_assoc. }
    destruct (String.eqb (stem file) "polyfill" && negb (String.eqb platform "mshtml"))
      eqn:Ep.
    { assert (S : skipped stem platform file = true).
      { unfold skipped. rewrite Ea, Ec. cbn [negb andb].
        apply andb_true_iff in Ep. destruct Ep as [-> ->]. reflexivity. }
      assert (L : load_step platform js_code file = js_code)
        by (unfold SortJs.load_step; now rewrite Ea, Ec, Ep).
      rewrite S, L. reflexivity. }
    assert (S : skipped stem platform file = false).
    { unfold skipped. rewrite Ea, Ec. cbn [negb andb]. exact Ep. }
    assert (L : load_step platform js_code file =
                js_code +++ LoadJs.render stem read format api_params customize_params file)
      by (unfold SortJs.load_step, LoadJs.render, LoadJs.fragment_params;
          now rewrite Ea, Ec, Ep).
    rewrite S, L. cbn [negb LoadJs.text_of fold_right]. now rewrite string_app_assoc.
Qed.

(** X4. The script [load_js_files] returns is the text of the fragments of
    [loaded_files], each read and formatted with its parameters, one after
    the other; on [mshtml] no fragment is left out. *)
Theorem load_js_files_text (platform : string) (js_files : list string) :
  load_js_files stem read format api_params customize_params platform js_files =
  text_of (loaded_files stem platform js_files)
  /\ loaded_files stem "mshtml" js_files = sort_js_files stem js_files.
Proof.
  split.
  - unfold load_js_files, loaded_files. now rewrite load_steps_text.
  - unfold loaded_files. apply filter_all. intros x _.
    unfold skipped. cbn. now rewrite andb_false_r.
Qed.

End Load.

Lemma sort_js_files_order_general_witness :
  sort_js_files posix_stem many_files =
  "js/polyfill.js" :: "js/api.js"
    :: firstn 97 (other_files 98) ++ "js/finish.js" :: skipn 97 (other_files 98).
Proof.
  assert (H := sort_js_files_order_general posix_stem many_files
                 "js/polyfill.js" "js/api.js" "js/finish.js"
                 eq_refl eq_refl eq_refl).
  assert (N : named posix_stem many_files = ["js/polyfill.js"; "js/api.js"; "js/finish.js"])
    by (vm_compute; reflexivity).
  rewrite N in H. specialize (H (Permutation_refl _)).
  assert (U : unordered posix_stem many_files = other_files 98)
    by (vm_compute; reflexivity).
  now rewrite U in H.
Defined.

Lemma sort_js_files_polyfill_first_witness :
  exists q rest,
    sort_js_files posix_stem ["a/x.js"; "a/finish.js"; "b/polyfill.js"] = q :: rest
    /\ posix_stem q = "polyfill".
Proof.
  apply (sort_js_files_polyfill_first posix_stem
           ["a/x.js"; "a/finish.js"; "b/polyfill.js"] "b/polyfill.js").
  - simpl. auto.
  - reflexivity.
Defined.

End SortJsMore.

(** ** The operators of [DOMEvent] *)

Module DomEventMore.
Import Py DomEvent DomEventOps.

Section DOMEvent.
Variable handler : Type.
Variable handler_eq_dec : forall x y : handler, {x = y} + {x <> y}.
Variable handler_str : handler -> string.
Variable Element : Type.
Variable element_on : string -> handler -> Element -> Element.
Variable element_off : string -> handler -> Element -> Element.

Lemma contains_true (item : handler) (items : list handler) :
  In item items -> contains handler_eq_dec item items = true.
Proof.
  intros H. unfold contains. now destruct (in_dec handler_eq_dec item items).
Qed.

Lemma contains_not (item : handler) (items : list handler) :
  ~ In item items -> contains handler_eq_dec item items = false.
Proof.
  intros H. unfold contains. now destruct (in_dec handler_eq_dec item items).
Qed.

Lemma list_remove_split (item : handler) (items : list handler) :
  In item items ->
  exists l1 l2,
    items = l1 ++ item :: l2 /\ ~ In item l1
    /\ list_remove handler_eq_dec item items = l1 ++ l2.
Proof.
  induction items as [|x items IH]; intros H; [contradiction|].
  simpl. destruct (handler_eq_dec x item) as [->|Hne].
  - exists [], items. auto.
  - destruct H as [E|H]; [contradiction|].
    destruct (IH H) as (l1 & l2 & -> & Hn & E).
    exists (x :: l1), l2. simpl. rewrite E. repeat split.
    intros [E'|Hin]; [contradiction|now apply Hn].
Qed.

Lemma list_remove_fresh_last (item : handler) (items : list handler) :
  ~ In item items ->
  list_remove handler_eq_dec item (items ++ [item]) = items.
Proof.
  induction items as [|x items IH]; intros H; simpl.
  - now destruct (handler_eq_dec item item).
  - destruct (handler_eq_dec x item) as [->|Hne].
    + exfalso. apply H. now left.
    + rewrite IH; [reflexivity|]. intros Hin. apply H. now right.
Qed.

(** X5. Unsubscribing with [-=] a handler that is registered removes its first
    occurrence from the handler list and nothing else, calls [off] on the
    element once, and logs nothing. *)
Theorem isub_registered (self : DOMEvent handler Element) (item : handler) :
  In item (_items self) ->
  let self' := __isub__ handler_eq_dec handler_str element_off self item in
  (exists l1 l2,
     _items self = l1 ++ item :: l2 /\ ~ In item l1 /\ _items self' = l1 ++ l2)
  /\ element self' = element_off (event self) item (element self)
  /\ log self' = log self.
Proof.
  intros H. unfold __isub__. rewrite (contains_true _ _ H). simpl.
  destruct (list_remove_split item (_items self) H) as (l1 & l2 & E1 & Hn & E2).
  split; [|auto]. now exists l1, l2.
Qed.

(** X6. Subscribing a handler that was not registered and unsubscribing it
    again gives back the handler list and the log; the element has seen
    [on] and then [off]. *)
Theorem iadd_isub_restores (self : DOMEvent handler Element) (item : handler) :
  ~ In item (_items self) ->
  let self' :=
    __isub__ handler_eq_dec handler_str element_off
      (__iadd__ element_on self item) item in
  _items self' = _items self
  /\ log self' = log self
  /\ element self' =
     element_off (event self) item (element_on (event self) item (element self)).
Proof.
  intros H. unfold __isub__, __iadd__. cbn [_items event element log].
  rewrite contains_true by (apply in_or_app; right; now left).
  cbn [_items event element log].
  now rewrite (list_remove_fresh_last item (_items self) H).
Qed.

(** X7. The binary [-] differs from [-=] on a handler that is not registered: it
    raises [ValueError] out of [list.remove]; on a registered handler the
    two do the same. *)
Theorem sub_raises_where_isub_warns (self : DOMEvent handler Element) (item : handler) :
  (In item (_items self) ->
   __sub__ handler_eq_dec element_off self item =
   inl (__isub__ handler_eq_dec handler_str element_off self item))
  /\ (~ In item (_items self) ->
      __sub__ handler_eq_dec element_off self item =
      inr (ValueError "list.remove(x): x not in list")).
Proof.
  unfold __sub__, __isub__. split; intros H.
  - now rewrite (contains_true _ _ H).
  - now rewrite (contains_not _ _ H).
Qed.

End DOMEvent.

Lemma isub_registered_witness :
  let self := mkDOMEvent "click" tt [1; 2; 1] [] in
  In 1 (_items self)
  /\ log (__isub__ Nat.eq_dec (fun _ => "h") (fun _ _ (e : unit) => e) self 1) = [].
Proof.
  assert (H : In 1 [1; 2; 1]) by (simpl; auto).
  destruct (isub_registered nat Nat.eq_dec (fun _ => "h") unit (fun _ _ e => e)
              (mkDOMEvent "click" tt [1; 2; 1] []) 1 H) as (_ & _ & E).
  split; [exact H|exact E].
Defined.

Lemma iadd_isub_restores_witness :
  let self := mkDOMEvent "click" tt [1; 2] [] in
  _items (__isub__ Nat.eq_dec (fun _ => "h") (fun _ _ (e : unit) => e)
            (__iadd__ (fun _ _ (e : unit) => e) self 3) 3) = [1; 2].
Proof.
  assert (H : ~ In 3 [1; 2]) by (simpl; lia).
  destruct (iadd_isub_restores nat Nat.eq_dec (fun _ => "h") unit
              (fun _ _ e => e) (fun _ _ e => e)
              (mkDOMEvent "click" tt [1; 2] []) 3 H) as (E & _).
  exact E.
Defined.

Lemma sub_raises_where_isub_warns_witness :
  __sub__ Nat.eq_dec (fun _ _ (e : unit) => e) (mkDOMEvent "click" tt [1; 2] []) 3 =
  inr (ValueError "list.remove(x): x not in list").
Proof.
  assert (H : ~ In 3 [1; 2]) by (simpl; lia).
  destruct (sub_raises_where_isub_warns nat Nat.eq_dec (fun _ => "h") unit
              (fun _ _ e => e) (mkDOMEvent "click" tt [1; 2] []) 3) as (_ & E).
  exact (E H).
Defined.

End DomEventMore.

(** ** Small functions of [webview/util.py] *)

Module UtilFacts.
Import Py Util.

(** *** [needs_server] *)

Lemma is_local_url_str (s : string) :
  is_local_url (UrlStr s) = true <->
  s <> "" /\ String.prefix "http://" s = false
  /\ String.prefix "https://" s = false /\ String.prefix "file://" s = false.
Proof.
  unfold is_local_url, startswith, is_app, is_false. cbn [orb].
  rewrite negb_true_iff, !orb_false_iff.
  destruct s as [|c s]; split.
  - intros [[[? _] _] _]. discriminate.
  - intros [H _]. now contradiction H.
  - intros [[[_ ?] ?] ?]. repeat split; try assumption. discriminate.
  - intros (_ & ? & ? & ?). auto.
Qed.

(** X8. A server is needed exactly when some url is an application or a string
    that is not empty and starts with none of [http://], [https://] and
    [file://]. *)
Theorem needs_server_iff (urls : list url) :
  needs_server urls = true <->
  exists u, In u urls
            /\ (u = UrlApp
                \/ exists s, u = UrlStr s /\ s <> ""
                             /\ String.prefix "http://" s = false
                             /\ String.prefix "https://" s = false
                             /\ String.prefix "file://" s = false).
Proof.
  unfold needs_server. split.
  - destruct (filter _ urls) as [|u l] eqn:E; [discriminate|]. intros _.
    assert (Hu : In u (filter (fun u => is_app u || is_local_url u) urls))
      by (rewrite E; now left).
    apply filter_In in Hu. destruct Hu as [Hin Hu].
    exists u. split; [assumption|].
    destruct u as [| |s]; [now left|discriminate|].
    right. exists s. split; [reflexivity|]. now apply is_local_url_str.
  - intros (u & Hin & Hu).
    assert (Hf : In u (filter (fun u => is_app u || is_local_url u) urls)).
    { apply filter_In. split; [assumption|].
      destruct Hu as [->|(s & -> & Hs)]; [reflexivity|].
      apply is_local_url_str in Hs. now rewrite Hs. }
    now destruct (filter _ urls).
Qed.

(** *** [environ_append] *)

Lemma join_cons_join (sep : string) (l vs : list string) :
  l <> [] -> join sep (l ++ vs) = join sep (join sep l :: vs).
Proof.
  induction l as [|x l IH]; intros H; [contradiction|].
  destruct l as [|y l]; [reflexivity|].
  change (join sep ((x :: y :: l) ++ vs))
    with (x +++ sep +++ join sep ((y :: l) ++ vs)).
  rewrite IH by discriminate.
  change (join sep (x :: y :: l)) with (x +++ sep +++ join sep (y :: l)).
  destruct vs as [|v vs]; [reflexivity|].
  cbn [join]. now rewrite !string_app_assoc.
Qed.

Lemma dict_set_set {V : Type} (k : string) (v v' : V) (d : list (string * V)) :
  dict_set k v' (dict_set k v d) = dict_set k v' d.
Proof.
  induction d as [|[k0 v0] d IH]; simpl.
  - now rewrite String.eqb_refl.
  - destruct (String.eqb k k0) eqn:E; simpl.
    + now rewrite String.eqb_refl.
    + now rewrite E, IH.
Qed.

Lemma dict_get_set_same {V : Type} (k : string) (v : V) (d : list (string * V)) :
  dict_get k (dict_set k v d) = Some v.
Proof.
  induction d as [|[k0 v0] d IH]; simpl.
  - now rewrite String.eqb_refl.
  - destruct (String.eqb k k0) eqn:E; simpl.
    + now rewrite String.eqb_refl.
    + now rewrite E.
Qed.

Lemma dict_get_set_other {V : Type} (k k' : string) (v : V) (d : list (string * V)) :
  k' <> k -> dict_get k' (dict_set k v d) = dict_get k' d.
Proof.
  intros Hne. induction d as [|[k0 v0] d IH]; simpl.
  - destruct (String.eqb_spec k' k); [contradiction|reflexivity].
  - destruct (String.eqb_spec k k0) as [->|Hk]; simpl.
    + destruct (String.eqb_spec k' k0); [contradiction|reflexivity].
    + now rewrite IH.
Qed.

(** X9. Appending in two calls is appending in one, as long as the first call
    leaves a value that is not empty (or had nothing to write): the second
    call finds the value of the first and puts it in front. The other
    variables are never touched. *)
Theorem environ_append_twice (key sep : string) (vs1 vs2 : list string)
  (environ : list (string * string)) :
  join sep (with_existing key vs1 environ) <> ""
  \/ with_existing key vs1 environ = [] ->
  environ_append key vs2 sep (environ_append key vs1 sep environ) =
  environ_append key (vs1 ++ vs2) sep environ
  /\ forall k, k <> key ->
       dict_get k (environ_append key vs1 sep environ) = dict_get k environ.
Proof.
  intros H. split; [|intros k Hk; now apply dict_get_set_other].
  assert (E : with_existing key (vs1 ++ vs2) environ =
              with_existing key vs1 environ ++ vs2).
  { unfold with_existing. now destruct (existing key environ). }
  set (l := with_existing key vs1 environ) in *.
  assert (X : existing key (environ_append key vs1 sep environ) = join sep l).
  { unfold existing, environ_append. now rewrite dict_get_set_same. }
  unfold environ_append at 1. unfold with_existing. rewrite X.
  unfold environ_append at 1. rewrite dict_set_set.
  unfold environ_append. f_equal. rewrite E.
  destruct H as [H|H].
  - rewrite (join_cons_join sep l vs2).
    + now destruct (join sep l).
    + intros E0. rewrite E0 in H. now apply H.
  - rewrite H. reflexivity.
Qed.

Lemma environ_append_twice_witness :
  environ_append "PATH" ["/opt"] ":"
    (environ_append "PATH" ["/usr/bin"; "/bin"] ":" [("HOME", "/root")]) =
  [("HOME", "/root"); ("PATH", "/usr/bin:/bin:/opt")].
Proof.
  destruct (environ_append_twice "PATH" ":" ["/usr/bin"; "/bin"] ["/opt"]
              [("HOME", "/root")]) as (E & _).
  - left. discriminate.
  - rewrite E. reflexivity.
Defined.

(** *** [interop_dll_path] *)

(** X14. A path [interop_dll_path] returns exists and is the first of the four
    candidates, in the order they are tried, that does; the function raises
    [FileNotFoundError] exactly when none of them exists. *)
Theorem interop_dll_path_exists arch64 module_dir argv_dir meipass frozen executable
  path_join path_exists (dll_name : string) :
  let name := interop_name arch64 dll_name in
  let p1 := unfrozen_path module_dir path_join name in
  let p2 := runtimes_path module_dir path_join name in
  let p3 := argv_path argv_dir path_join name in
  let p4 := onefile_path argv_dir meipass frozen executable path_join name in
  match interop_dll_path arch64 module_dir argv_dir meipass frozen executable
          path_join path_exists dll_name with
  | inl p =>
      path_exists p = true
      /\ (p = p1
          \/ (path_exists p1 = false
              /\ (p = p2
                  \/ (path_exists p2 = false
                      /\ (p = p3 \/ (path_exists p3 = false /\ p = p4))))))
  | inr e =>
      e = FileNotFoundError ("Cannot find " +++ name)
      /\ path_exists p1 = false /\ path_exists p2 = false
      /\ path_exists p3 = false /\ path_exists p4 = false
  end.
Proof.
  intros name p1 p2 p3 p4. unfold interop_dll_path.
  fold name. fold p1. fold p2. fold p3. fold p4.
  destruct (path_exists p1) eqn:E1; [auto|].
  destruct (path_exists p2) eqn:E2; [auto 6|].
  destruct (path_exists p3) eqn:E3; [auto 8|].
  destruct (path_exists p4) eqn:E4; [auto 10|].
  auto.
Qed.

(** *** [css_to_camel] *)

Lemma split_char_not_nil (c : ascii) (s : string) : split_char c s <> [].
Proof.
  destruct s as [|a s]; simpl; [discriminate|].
  destruct (Ascii.eqb a c); [discriminate|].
  destruct (split_char c s); discriminate.
Qed.

Lemma split_char_no_char (c : ascii) (s : string) :
  no_char c s = true -> split_char c s = [s].
Proof.
  induction s as [|a s IH]; simpl; [reflexivity|].
  intros H. apply andb_true_iff in H. destruct H as [H1 H2].
  apply negb_true_iff in H1. rewrite H1, (IH H2). reflexivity.
Qed.

Lemma split_char_words (c : ascii) (s : string) :
  Forall (fun w => no_char c w = true) (split_char c s).
Proof.
  induction s as [|a s IH]; simpl.
  - repeat constructor.
  - destruct (Ascii.eqb a c) eqn:E.
    + constructor; [reflexivity|assumption].
    + destruct (split_char c s) as [|w ws]; [repeat constructor; simpl; now rewrite E|].
      inversion IH as [|? ? Hw Hws]; subst.
      constructor; [|assumption]. simpl. now rewrite E, Hw.
Qed.

Lemma no_char_app (c : ascii) (s t : string) :
  no_char c (s +++ t) = no_char c s && no_char c t.
Proof.
  induction s as [|a s IH]; simpl; [reflexivity|].
  now rewrite IH, andb_assoc.
Qed.

Section Css.
Variable capitalize : string -> string.
Hypothesis capitalize_no_hyphen :
  forall w, no_char hyphen w = true -> no_char hyphen (capitalize w) = true.

Lemma concat_all_no_hyphen (ws : list string) :
  Forall (fun w => no_char hyphen w = true) ws ->
  no_char hyphen (concat_all (map capitalize ws)) = true.
Proof.
  induction 1 as [|w ws Hw _ IH]; simpl; [reflexivity|].
  rewrite no_char_app, IH, (capitalize_no_hyphen w Hw). reflexivity.
Qed.

(** X10. A name without a hyphen is returned as it is; in general the result
    starts with the first word unchanged, holds no hyphen, and converting it
    again changes nothing. *)
Theorem css_to_camel_idempotent (s : string) :
  (no_char hyphen s = true -> css_to_camel capitalize s = s)
  /\ no_char hyphen (css_to_camel capitalize s) = true
  /\ css_to_camel capitalize (css_to_camel capitalize s) = css_to_camel capitalize s.
Proof.
  assert (A : forall t, no_char hyphen t = true -> css_to_camel capitalize t = t).
  { intros t Ht. unfold css_to_camel. rewrite (split_char_no_char _ _ Ht).
    simpl. apply string_app_nil_r. }
  assert (B : no_char hyphen (css_to_camel capitalize s) = true).
  { unfold css_to_camel.
    assert (W := split_char_words hyphen s).
    destruct (split_char hyphen s) as [|w ws]; [reflexivity|].
    inversion W as [|? ? Hw Hws]; subst. cbn [hd tl].
    now rewrite no_char_app, Hw, (concat_all_no_hyphen ws Hws). }
  split; [apply A|]. split; [exact B|now apply A].
Qed.

End Css.

Lemma upper_not_hyphen (c : ascii) : Ascii.eqb c hyphen = false -> Ascii.eqb (upper c) hyphen = false.
Proof.
  destruct c as [[] [] [] [] [] [] [] []]; vm_compute; auto.
Qed.

Lemma lower_not_hyphen (c : ascii) : Ascii.eqb c hyphen = false -> Ascii.eqb (lower c) hyphen = false.
Proof.
  destruct c as [[] [] [] [] [] [] [] []]; vm_compute; auto.
Qed.

Lemma ascii_capitalize_no_hyphen (w : string) :
  no_char hyphen w = true -> no_char hyphen (ascii_capitalize w) = true.
Proof.
  destruct w as [|c w]; [reflexivity|].
  cbn [no_char ascii_capitalize]. intros H.
  apply andb_true_iff in H. destruct H as [H1 H2].
  apply negb_true_iff in H1. rewrite (upper_not_hyphen c H1). cbn [negb andb].
  induction w as [|d w IH]; [reflexivity|].
  cbn [no_char map_string] in *.
  apply andb_true_iff in H2. destruct H2 as [H2 H3].
  apply negb_true_iff in H2. rewrite (lower_not_hyphen d H2). cbn [negb andb].
  now apply IH.
Qed.

Lemma css_to_camel_idempotent_witness :
  css_to_camel ascii_capitalize "background-COLOR-x" = "backgroundColorX"
  /\ css_to_camel ascii_capitalize "backgroundColorX" = "backgroundColorX".
Proof.
  destruct (css_to_camel_idempotent ascii_capitalize ascii_capitalize_no_hyphen
              "background-COLOR-x") as (_ & _ & E).
  assert (C : css_to_camel ascii_capitalize "background-COLOR-x" = "backgroundColorX")
    by reflexivity.
  rewrite C in E. split; [reflexivity|exact E].
Defined.

(** *** The escaped strings as literals *)

Lemma js_escape_cons (c : ascii) (s : string) :
  Bridge.js_escape (String c s) = js_escape_char c +++ Bridge.js_escape s.
Proof.
  unfold Bridge.js_escape, js_escape_char.
  rewrite (replace_char_cons backslash _ c s), replace_char_app.
  f_equal.
  destruct (Ascii.eqb_spec c backslash) as [->|Hb]; [reflexivity|].
  destruct (Ascii.eqb_spec c squote) as [->|Hq]; [reflexivity|].
  simpl. apply Ascii.eqb_neq in Hb, Hq. rewrite Hb. simpl. now rewrite Hq.
Qed.

Lemma literal_body_js_escape_char (c : ascii) (s : string) :
  literal_body squote (js_escape_char c +++ s) = literal_body squote s.
Proof.
  unfold js_escape_char.
  destruct (Ascii.eqb_spec c backslash) as [->|Hb]; [reflexivity|].
  destruct (Ascii.eqb_spec c squote) as [->|Hq]; [reflexivity|].
  simpl. apply Ascii.eqb_neq in Hb, Hq. now rewrite Hb, Hq.
Qed.

Lemma js_unescape_escape_char (c : ascii) (s : string) :
  js_unescape (js_escape_char c +++ s) = String c (js_unescape s).
Proof.
  unfold js_escape_char.
  destruct (Ascii.eqb_spec c backslash) as [->|Hb]; [reflexivity|].
  destruct (Ascii.eqb_spec c squote) as [->|Hq]; [reflexivity|].
  simpl. apply Ascii.eqb_neq in Hb. now rewrite Hb.
Qed.

(** X11. The encoded result, escaped as [_call] escapes it, is in order as the
    body of a literal in single quotes: it holds no bare single quote and
    does not end on a lone backslash, so the statement it is embedded in
    ends where it should; and the reader of the literal gets the encoded
    result back. *)
Theorem js_escape_literal (s : string) :
  literal_body squote (Bridge.js_escape s) = true
  /\ js_unescape (Bridge.js_escape s) = s.
Proof.
  induction s as [|c s [IH1 IH2]]; [split; reflexivity|].
  rewrite js_escape_cons, literal_body_js_escape_char, js_unescape_escape_char.
  split; [assumption|now rewrite IH2].
Qed.

Lemma literal_body_escape_char (c : ascii) (s : string) :
  literal_body dquote (Escape.escape_char c +++ s) = literal_body dquote s.
Proof.
  unfold Escape.escape_char.
  destruct (Ascii.eqb_spec c backslash) as [->|Hb]; [reflexivity|].
  destruct (Ascii.eqb_spec c dquote) as [->|Hq]; [reflexivity|].
  destruct (Ascii.eqb_spec c newline) as [->|Hn]; [reflexivity|].
  destruct (Ascii.eqb_spec c creturn) as [->|Hr]; [reflexivity|].
  simpl. apply Ascii.eqb_neq in Hb, Hq. now rewrite Hb, Hq.
Qed.

Lemma no_break_escape_char (c : ascii) (s : string) :
  no_char newline (Escape.escape_char c +++ s) = no_char newline s
  /\ no_char creturn (Escape.escape_char c +++ s) = no_char creturn s.
Proof.
  unfold Escape.escape_char.
  destruct (Ascii.eqb_spec c backslash) as [->|Hb]; [split; reflexivity|].
  destruct (Ascii.eqb_spec c dquote) as [->|Hq]; [split; reflexivity|].
  destruct (Ascii.eqb_spec c newline) as [->|Hn]; [split; reflexivity|].
  destruct (Ascii.eqb_spec c creturn) as [->|Hr]; [split; reflexivity|].
  simpl. apply Ascii.eqb_neq in Hn, Hr. now rewrite Hn, Hr.
Qed.

(** X12. [escape_string] gives the body of a literal in double quotes: no bare
    double quote, no lone backslash at the end, and no line feed or carriage
    return character at all. *)
Theorem escape_string_literal (s : string) :
  literal_body dquote (Escape.escape_string s) = true
  /\ no_char newline (Escape.escape_string s) = true
  /\ no_char creturn (Escape.escape_string s) = true.
Proof.
  induction s as [|c s (IH1 & IH2 & IH3)]; [repeat split|].
  rewrite EscapeFacts.escape_string_cons, literal_body_escape_char.
  destruct (no_break_escape_char c (Escape.escape_string s)) as [-> ->].
  auto.
Qed.

Lemma escape_quotes_cons (c : ascii) (s : string) :
  Escape.escape_quotes (String c s) = escape_quotes_char c +++ Escape.escape_quotes s.
Proof.
  unfold Escape.escape_quotes, escape_quotes_char.
  rewrite (replace_char_cons dquote _ c s), replace_char_app.
  f_equal.
  destruct (Ascii.eqb_spec c dquote) as [->|Hd]; [reflexivity|].
  destruct (Ascii.eqb_spec c squote) as [->|Hq]; [reflexivity|].
  simpl. apply Ascii.eqb_neq in Hd, Hq. rewrite Hd. simpl. now rewrite Hq.
Qed.

(** The result of [escape_quotes] never begins with a quote. *)
Lemma escape_quotes_head (s : string) :
  match Escape.escape_quotes s with
  | EmptyString => True
  | String d _ => Ascii.eqb d dquote || Ascii.eqb d squote = false
  end.
Proof.
  destruct s as [|c s]; [exact I|].
  rewrite escape_quotes_cons. unfold escape_quotes_char.
  destruct (Ascii.eqb_spec c dquote) as [->|Hd]; [reflexivity|].
  destruct (Ascii.eqb_spec c squote) as [->|Hq]; [reflexivity|].
  simpl. apply Ascii.eqb_neq in Hd, Hq. now rewrite Hd, Hq.
Qed.

Lemma unescape_quotes_char (c : ascii) (s : string) :
  unescape_quotes (escape_quotes_char c +++ Escape.escape_quotes s) =
  String c (unescape_quotes (Escape.escape_quotes s)).
Proof.
  unfold escape_quotes_char.
  destruct (Ascii.eqb_spec c dquote) as [->|Hd]; [reflexivity|].
  destruct (Ascii.eqb_spec c squote) as [->|Hq]; [reflexivity|].
  assert (Hh := escape_quotes_head s).
  cbn [str1 String.append].
  destruct (Escape.escape_quotes s) as [|d t]; [reflexivity|].
  cbn [unescape_quotes]. rewrite Hh. now rewrite andb_false_r.
Qed.

(** X13. [escape_quotes] loses nothing: removing the backslash in front of every
    quote gives the argument back, so two distinct strings never have the
    same escaped form. *)
Theorem escape_quotes_injective (s t : string) :
  unescape_quotes (Escape.escape_quotes s) = s
  /\ (Escape.escape_quotes s = Escape.escape_quotes t -> s = t).
Proof.
  assert (R : forall u, unescape_quotes (Escape.escape_quotes u) = u).
  { induction u as [|c u IH]; [reflexivity|].
    now rewrite escape_quotes_cons, unescape_quotes_char, IH. }
  split; [apply R|]. intros E. rewrite <- (R s), <- (R t). now rewrite E.
Qed.

Lemma escape_quotes_injective_witness :
  Escape.escape_quotes (str2 backslash dquote) <> Escape.escape_quotes (str1 dquote).
Proof.
  intros E.
  apply (escape_quotes_injective (str2 backslash dquote) (str1 dquote)) in E.
  discriminate E.
Defined.

End UtilFacts.

(** ** The catalog and the dispatcher together *)

Module CatalogMore.
Import Py Stub StubMore Bridge StubFacts.

(** *** The names of the catalog are pairwise distinct *)





(** *** Dotted names and the attribute walk *)

Lemma split_dot_not_nil (s : string) : split_dot s <> [].
Proof.
  destruct s as [|c s]; simpl; [discriminate|].
  destruct (Ascii.eqb c dot); [discriminate|].
  destruct (split_dot s); discriminate.
Qed.

Lemma split_dot_app_dot (a b : string) :
  split_dot (a +++ String dot b) = split_dot a ++ split_dot b.
Proof.
  induction a as [|c a IH]; [reflexivity|].
  cbn [String.append split_dot]. rewrite IH.
  destruct (Ascii.eqb c dot); [reflexivity|].
  assert (N := split_dot_not_nil a).
  destruct (split_dot a) as [|w ws]; [contradiction|reflexivity].
Qed.

Lemma split_dot_plain (n : string) : no_dot n = true -> split_dot n = [n].
Proof.
  induction n as [|c n IH]; simpl; [reflexivity|].
  intros H. apply andb_true_iff in H. destruct H as [H1 H2].
  apply negb_true_iff in H1. rewrite H1, (IH H2). reflexivity.
Qed.

Lemma walk_attributes_app (h : heap) (l1 l2 : list string) :
  forall obj,
    walk_attributes h obj (l1 ++ l2) =
    match walk_attributes h obj l1 with
    | Some obj' => walk_attributes h obj' l2
    | None => None
    end.
Proof.
  induction l1 as [|attr l1 IH]; intros obj; simpl; [reflexivity|].
  destruct (getattr_not_none h obj attr); [apply IH|reflexivity].
Qed.

(** X16. Resolving [a.b] is resolving [a] and then [b] from what [a] led to; a
    part that is missing, or [None], makes the whole name fail. *)
Theorem get_nested_attribute_compose (h : heap) (obj : objid) (a b : string) :
  get_nested_attribute h obj (a +++ "." +++ b) =
  match get_nested_attribute h obj a with
  | Some obj' => get_nested_attribute h obj' b
  | None => None
  end.
Proof.
  unfold get_nested_attribute.
  change (a +++ "." +++ b) with (a +++ String dot b).
  rewrite split_dot_app_dot. apply walk_attributes_app.
Qed.

(** *** Every entry of the catalog can be dispatched *)

Lemma dict_get_In_distinct {V : Type} (k : string) (v : V) (d : list (string * V)) :
  NoDup (map fst d) -> In (k, v) d -> dict_get k d = Some v.
Proof.
  induction d as [|[k0 v0] d IH]; simpl; [contradiction|].
  intros H [E|Hin].
  - injection E as -> ->. now rewrite String.eqb_refl.
  - apply NoDup_cons_iff in H. destruct H as [H1 H2].
    destruct (String.eqb_spec k k0) as [->|_].
    + exfalso. apply H1. now apply (in_map fst) in Hin.
    + now apply IH.
Qed.

Lemma none_deref (h : heap) (o : objid) :
  none_consistent h = true ->
  obj_ismethod (deref h o) = true \/ recurses (deref h o) = true ->
  obj_is_none (deref h o) = false.
Proof.
  intros H Ho. unfold deref.
  destruct (Nat.lt_ge_cases o (List.length h)) as [Hin|Hout].
  - unfold none_consistent in H. rewrite forallb_forall in H.
    specialize (H _ (nth_In h plain_value Hin)). fold (deref h o) in *.
    destruct (obj_is_none (deref h o)); [|reflexivity].
    simpl in H. apply andb_true_iff in H. destruct H as [H1 H2].
    apply negb_true_iff in H1, H2. destruct Ho; congruence.
  - now rewrite nth_overflow.
Qed.

Section Resolve.
Variable h : heap.
Variable root : objid.
Hypothesis Hwf : wf_heap h = true.
Hypothesis Hnone : none_consistent h = true.

Lemma getattr_found (o : objid) (n : string) (a : objid) :
  In (n, a) (obj_attrs (deref h o)) ->
  obj_ismethod (deref h a) = true \/ recurses (deref h a) = true ->
  getattr_not_none h o n = Some a.
Proof.
  intros Hin Ha. unfold getattr_not_none.
  rewrite (dict_get_In_distinct n a _ (wf_names_distinct h o Hwf) Hin).
  now rewrite (none_deref h a Hnone Ha).
Qed.

Lemma is_child_recurses (kv : string * objid) :
  is_child h kv = true -> recurses (deref h (snd kv)) = true.
Proof.
  unfold is_child. intros H. apply andb_true_iff in H. now destruct H.
Qed.

Lemma is_public_method_ismethod (kv : string * objid) :
  is_public_method h kv = true -> obj_ismethod (deref h (snd kv)) = true.
Proof.
  unfold is_public_method. intros H. apply andb_true_iff in H. now destruct H.
Qed.

(** The path of an attribute of [o], given the path of [o]. *)
Lemma walk_full_name (o : objid) (b n : string) (a : objid) :
  (b = "" -> o = root) ->
  (b <> "" -> walk_attributes h root (split_dot b) = Some o) ->
  In (n, a) (obj_attrs (deref h o)) ->
  plain_name n = true ->
  obj_ismethod (deref h a) = true \/ recurses (deref h a) = true ->
  walk_attributes h root (split_dot (full_name b n)) = Some a.
Proof.
  intros Hroot Hwalk Hin Hn Ha.
  destruct (plain_name_spec n Hn) as [_ Hd].
  destruct b as [|c b].
  - rewrite <- (Hroot eq_refl) . cbn [full_name].
    rewrite (split_dot_plain n Hd). cbn [walk_attributes].
    now rewrite (getattr_found o n a Hin Ha).
  - rewrite full_name_cons, split_dot_app_dot, walk_attributes_app.
    rewrite Hwalk by discriminate.
    rewrite (split_dot_plain n Hd). cbn [walk_attributes].
    now rewrite (getattr_found o n a Hin Ha).
Qed.

Lemma has_path_walk (o : objid) (b : string) :
  has_path h root o b ->
  (b = "" -> o = root)
  /\ (b <> "" -> walk_attributes h root (split_dot b) = Some o).
Proof.
  induction 1 as [|o b n a s Hp [IH1 IH2] Hin Hc Hs].
  - split; [reflexivity|]. intros H. now contradiction H.
  - assert (Hn := wf_public_name h o n a Hwf Hin (is_child_public h _ Hc)).
    assert (Hw : walk_attributes h root (split_dot s) = Some a).
    { rewrite Hs. apply (walk_full_name o b n a IH1 IH2 Hin Hn).
      right. apply (is_child_recurses _ Hc). }
    split; [|intros _; exact Hw].
    intros E. exfalso. rewrite E in Hs. symmetry in Hs. revert Hs.
    apply full_name_not_empty. now apply (plain_name_spec n).
Qed.

Lemma split_full_name_public (b n : string) :
  (b <> "" -> Forall (fun p => startswith_underscore p = false) (split_dot b)) ->
  plain_name n = true ->
  startswith_underscore n = false ->
  Forall (fun p => startswith_underscore p = false) (split_dot (full_name b n)).
Proof.
  intros Hb Hn Hpub.
  destruct (plain_name_spec n Hn) as [_ Hd].
  destruct b as [|c b].
  - cbn [full_name]. rewrite (split_dot_plain n Hd). now repeat constructor.
  - rewrite full_name_cons, split_dot_app_dot, (split_dot_plain n Hd).
    apply Forall_app. split; [apply Hb; discriminate|now repeat constructor].
Qed.

Lemma has_path_public (o : objid) (b : string) :
  has_path h root o b ->
  b <> "" -> Forall (fun p => startswith_underscore p = false) (split_dot b).
Proof.
  induction 1 as [|o b n a s Hp IH Hin Hc Hs]; intros Hne; [now contradiction Hne|].
  rewrite Hs. apply split_full_name_public; [assumption| |].
  - apply (wf_public_name h o n a Hwf Hin (is_child_public h _ Hc)).
  - apply (is_child_public h _ Hc).
Qed.

End Resolve.

(** Where the entries of the dictionary come from. *)
Lemma discover_entries (h : heap) (window : Window) (st : gf_state)
  (name : string) (ps : list string) :
  wf_heap h = true ->
  discover h window = Some st ->
  In (name, ps) (functions st) ->
  exists o b n a,
    has_path h (_js_api window) o b
    /\ In (n, a) (obj_attrs (deref h o))
    /\ is_public_method h (n, a) = true
    /\ name = full_name b n
    /\ ps = tl (obj_args (deref h a)).
Proof.
  intros Hwf E Hin.
  assert (HI0 : walk_invariant h (_js_api window) (mkGf [] []) [] []).
  { repeat split; try constructor; intros; contradiction. }
  destruct (get_functions_spec h (_js_api window) Hwf _ _ _ _ _ _ _ E HI0
              (path_root h (_js_api window)))
    as (nb & nl & HI & _).
  simpl in HI.
  assert (Hfun := functions_are_log h (_js_api window) Hwf _ _ _ HI).
  destruct HI as (_ & _ & I3 & I4 & _).
  rewrite Hfun in Hin. apply in_map_iff in Hin.
  destruct Hin as (it & Eit & Hit). unfold entry_of in Eit.
  injection Eit as <- <-.
  destruct (I3 it Hit) as (A & B & C).
  exists (owner it), (obase it), (oname it), (oattr it).
  split; [now apply I4|]. auto.
Qed.

(** X17. Every name the walk puts into the catalog resolves, by the attribute
    walk of the dispatcher from the same root, to the bound method the entry
    describes; unless a registered function has that name, this method is
    what [resolve] returns. *)
Theorem catalog_entries_resolve (h : heap) (window : Window) (st : gf_state)
  (name : string) (ps : list string) :
  wf_heap h = true ->
  none_consistent h = true ->
  discover h window = Some st ->
  In (name, ps) (functions st) ->
  exists a,
    get_nested_attribute h (_js_api window) name = Some a
    /\ obj_ismethod (deref h a) = true
    /\ ps = tl (obj_args (deref h a))
    /\ (dict_get name (_functions window) = None ->
        resolve h window name = Some (obj_call (deref h a))).
Proof.
  intros Hwf Hnone E Hin.
  destruct (discover_entries h window st name ps Hwf E Hin)
    as (o & b & n & a & Hp & Ha & Hm & -> & ->).
  destruct (has_path_walk h (_js_api window) Hwf Hnone o b Hp) as [W1 W2].
  assert (Hn := wf_public_name h o n a Hwf Ha (is_public_method_public h _ Hm)).
  assert (Hmeth := is_public_method_ismethod h _ Hm). simpl in Hmeth.
  assert (W : get_nested_attribute h (_js_api window) (full_name b n) = Some a).
  { unfold get_nested_attribute.
    apply (walk_full_name h (_js_api window) Hwf Hnone o b n a W1 W2 Ha Hn).
    now left. }
  exists a. split; [exact W|]. split; [exact Hmeth|]. split; [reflexivity|].
  intros Hf. unfold resolve. now rewrite Hf, W.
Qed.

(** X18. No part of a catalog name begins with an underscore: a private
    attribute is neither listed nor walked through. *)
Theorem catalog_names_public (h : heap) (window : Window) (st : gf_state)
  (name : string) (ps : list string) :
  wf_heap h = true ->
  discover h window = Some st ->
  In (name, ps) (functions st) ->
  Forall (fun part => startswith_underscore part = false) (split_dot name).
Proof.
  intros Hwf E Hin.
  destruct (discover_entries h window st name ps Hwf E Hin)
    as (o & b & n & a & Hp & Ha & Hm & -> & _).
  apply split_full_name_public.
  - now apply (has_path_public h (_js_api window) Hwf o b).
  - apply (wf_public_name h o n a Hwf Ha (is_public_method_public h _ Hm)).
  - apply (is_public_method_public h _ Hm).
Qed.

(** *** Registered functions in the catalog and in the dispatcher *)




Lemma catalog_entries_resolve_witness :
  exists a,
    get_nested_attribute api_with_cycle 0 "sub.run" = Some a
    /\ obj_ismethod (deref api_with_cycle a) = true
    /\ ["x"; "y"] = tl (obj_args (deref api_with_cycle a)).
Proof.
  destruct (catalog_entries_resolve api_with_cycle (mkWindow 0 [] [] [])
              (mkGf [0; 2] [("greet", ["name"]); ("sub.run", ["x"; "y"])])
              "sub.run" ["x"; "y"] eq_refl eq_refl eq_refl)
    as (a & H1 & H2 & H3 & _).
  - simpl. auto.
  - now exists a.
Defined.

Lemma catalog_names_public_witness :
  Forall (fun part => startswith_underscore part = false) (split_dot "sub.run").
Proof.
  apply (catalog_names_public api_with_cycle (mkWindow 0 [] [] [])
           (mkGf [0; 2] [("greet", ["name"]); ("sub.run", ["x"; "y"])])
           "sub.run" ["x"; "y"] eq_refl eq_refl).
  simpl. auto.
Defined.

End CatalogMore.

(** ** Further behaviour of [js_bridge_call] *)

Module BridgeMore.
Import Py Bridge BridgeFacts.

Section Dispatch.
Variable json_dumps : pyvalue -> string + exn.
Variable json_loads : pyvalue -> pyvalue + exn.
Variable unquote : string -> string.
Variable py_str : pyvalue -> string.
Variable format_exc : exn -> string.

Local Abbreviation js_bridge_call := (js_bridge_call json_loads unquote py_str).
Local Abbreviation _call := (_call json_dumps format_exc).
Local Abbreviation attached := (BridgeOps.attached unquote).

(** X20. A returned value that [json.dumps] refuses is delivered as an error:
    the exception of the encoder takes the place of one raised by the
    callable, and the worker still evaluates one statement. *)
Theorem call_unserializable_result func func_name func_params value_id v e s :
  func func_params = Returns v ->
  json_dumps v = inr e ->
  json_dumps (error_value format_exc e) = inl s ->
  _call func func_name func_params value_id =
  ([LogError (format_exc e);
    EvaluateJs (error_statement func_name value_id (js_escape s))],
   None).
Proof.
  intros Hv He Hs. unfold Bridge._call, try_call. now rewrite Hv, He, Hs.
Qed.


(** X22. An event for a node id that is not among the elements is dropped
    silently, whatever its type: no handler is started and, also for a drop
    event, the registry of dropped paths is not read. *)
Theorem event_for_unknown_element h value_id w params event node :
  dict_get "event" params = Some event ->
  dict_get "nodeId" params = Some (VStr node) ->
  dict_get node (_elements (window w)) = None ->
  js_bridge_call h "pywebviewEventHandler" (VDict params) value_id w = (inl tt, w).
Proof.
  intros Hev Hn He.
  unfold Bridge.js_bridge_call. cbn [String.eqb Ascii.eqb Bool.eqb].
  unfold event_handler, bind, lift, get_window, subscript.
  rewrite Hev, Hn. unfold ret. cbn [lookup_value]. now rewrite He.
Qed.


(** *** What the loop over the dropped files keeps *)

Lemma list_remove_incl (x : string * string) (paths : list (string * string)) :
  incl (list_remove x paths) paths.
Proof.
  induction paths as [|y paths IH]; simpl; [apply incl_refl|].
  destruct (pair_eqb y x).
  - now apply incl_tl, incl_refl.
  - intros z [<-|Hz]; [now left|right; now apply IH].
Qed.

Lemma drop_file_attached paths file file' paths' :
  drop_file unquote paths file = inl (file', paths') ->
  attached paths file file' /\ incl paths' paths.
Proof.
  unfold drop_file.
  destruct (matching_paths unquote paths file) as [[|first l]|e] eqn:M; try discriminate.
  - intros [= <- <-]. split; [now left|apply incl_refl].
  - destruct file as [| | | | |d|]; try discriminate.
    cbn [set_full_path]. intros [= <- <-].
    split; [|apply list_remove_incl].
    right. exists d, first. split; [reflexivity|]. split; [|reflexivity].
    unfold matching_paths in M. destruct paths as [|p paths]; [discriminate|].
    destruct (subscript (VDict d) "name") as [name|]; [|discriminate].
    injection M as M.
    assert (Hin : In first (first :: l)) by now left.
    rewrite <- M in Hin.
    now apply (proj1 (filter_In
                        (fun item => str_eq_value (unquote (fst item)) name)
                        first (p :: paths))) in Hin.
Qed.

Lemma attached_incl paths paths' file file' :
  incl paths' paths -> attached paths' file file' -> attached paths file file'.
Proof.
  intros Hi [E|(d & item & E1 & Hin & E2)]; [now left|].
  right. exists d, item. auto.
Qed.

Lemma attached_name paths file file' :
  attached paths file file' -> subscript file' "name" = subscript file "name".
Proof.
  intros [->|(d & item & -> & _ & ->)]; [reflexivity|].
  unfold subscript.
  now rewrite (UtilFacts.dict_get_set_other "pywebviewFullPath" "name").
Qed.

(** X24. The loop over the dropped files returns as many files as it got, in
    the same order and with the same names; a file comes out unchanged or
    with the decoded path of a registry entry attached; the registry only
    loses entries; the window, the log and the threads are not touched. *)
Theorem drop_files_conserves files :
  forall w files' w',
    drop_files unquote files w = (inl files', w') ->
    Forall2 (attached (dnd_paths w)) files files'
    /\ Forall2 (fun file file' => subscript file' "name" = subscript file "name")
         files files'
    /\ incl (dnd_paths w') (dnd_paths w)
    /\ window w' = window w /\ trace w' = trace w /\ threads w' = threads w.
Proof.
  induction files as [|file rest IH]; intros w files' w' H.
  - simpl in H. unfold ret in H. injection H as <- <-.
    repeat split; try constructor. apply incl_refl.
  - rewrite drop_files_step in H.
    destruct (drop_file unquote (dnd_paths w) file) as [[file1 paths1]|e] eqn:E;
      [|discriminate].
    destruct (drop_files unquote rest _) as [[rest'|e] w1] eqn:E1; [|discriminate].
    injection H as <- <-.
    destruct (IH _ _ _ E1) as (A & B & C & D1 & D2 & D3). cbn in A, C, D1, D2, D3.
    destruct (drop_file_attached _ _ _ _ E) as [F G].
    split; [|split; [|split; [|auto]]].
    + constructor; [exact F|].
      eapply Forall2_impl; [|exact A]. intros a b. now apply attached_incl.
    + constructor; [now apply (attached_name (dnd_paths w))|exact B].
    + eapply incl_tran; eassumption.
Qed.

End Dispatch.

(** *** Closed examples *)

Lemma call_unserializable_result_witness :
  Bridge._call toy_dumps toy_format_exc (fun _ => Returns (VObject 7)) "open" VNone "abc" =
  ([LogError "Traceback: TypeError: Object is not JSON serializable";
    EvaluateJs (error_statement "open" "abc" "{}")],
   None).
Proof.
  exact (call_unserializable_result toy_dumps toy_format_exc
           (fun _ => Returns (VObject 7)) "open" VNone "abc" (VObject 7)
           (TypeError "Object is not JSON serializable") "{}"
           eq_refl eq_refl eq_refl).
Defined.


Lemma event_for_unknown_element_witness :
  Bridge.js_bridge_call toy_loads (fun s => s) toy_str
    [] "pywebviewEventHandler"
    (VDict [("event", drop_event [a_txt]); ("nodeId", VStr "gone")]) "" drop_world =
  (inl tt, drop_world).
Proof.
  exact (event_for_unknown_element toy_loads (fun s => s) toy_str [] "" drop_world
           [("event", drop_event [a_txt]); ("nodeId", VStr "gone")]
           (drop_event [a_txt]) "gone" eq_refl eq_refl eq_refl).
Defined.


Lemma drop_files_conserves_witness :
  let r := Bridge.drop_files (fun s => s) [a_txt; a_txt; a_txt] drop_world in
  exists files', fst r = inl files' /\ List.length files' = 3
                 /\ incl (dnd_paths (snd r)) (dnd_paths drop_world).
Proof.
  cbv zeta.
  destruct (Bridge.drop_files (fun s => s) [a_txt; a_txt; a_txt] drop_world)
    as [[files'|e] w'] eqn:E; [|vm_compute in E; discriminate].
  destruct (drop_files_conserves (fun s => s) [a_txt; a_txt; a_txt] drop_world
              files' w' E) as (A & _ & C & _).
  exists files'. split; [reflexivity|]. split; [|exact C].
  apply Forall2_length in A. simpl in A. now rewrite <- A.
Defined.

End BridgeMore.
